(** * Semantify 2.0: the ontology builder, query engine and merge of [app.py]

    A shallow embedding of the text-to-ontology pipeline of [src/app.py]
    (Tab 1 "Ontology Builder", Tab 2 "Graph Visualization", Tab 3 "Semantic
    Queries", Tab 4 "Export & Merge") and the properties of it that the
    specification states, followed by further properties of the code.

    Modelling conventions.
    - A Python [str] is a [string]; a character is an [ascii] read as its
      code point.  The character classes and case mappings below are those of
      Python on ASCII text (code points below 128); a byte from 128 up is
      carried through unchanged and belongs to no class.  Python's case
      mappings outside ASCII depend on context and may change the length of
      a string: a property that rests on a law of the ASCII mappings is
      stated for ASCII strings ([ascii_only]).
    - [st.session_state] is a dictionary: a [gmap string session_value].
    - A Python [set] of strings is a [gset string]; an rdflib [Graph] is a
      [gset] of (subject, predicate, object) statements over IRIs.
    - The Streamlit calls of a tab are the list of [ui] events it emits, in
      program order; an uncaught exception is the last event of such a list.
    - rdflib's Turtle serialiser and parser are external: the handlers take
      them as the Section variables [serialize] and [parse].  What is
      modelled of the serialiser is its refusal of a graph with an IRI it
      will not write ([graph_writable]). *)

From Stdlib Require Import Ascii NArith Lia.
From stdpp Require Import gmap strings list fin_maps.

Local Open Scope N_scope.

(** ** Characters *)

Definition code (c : ascii) : N := N_of_ascii c.

(** [str.isspace] on ASCII: TAB, LF, VT, FF, CR, FS, GS, RS, US and SPACE. *)
Definition py_isspace (c : ascii) : bool :=
  ((9 <=? code c) && (code c <=? 13)) || ((28 <=? code c) && (code c <=? 32)).

(** The regex class [[A-Z]]. *)
Definition is_upper (c : ascii) : bool := (65 <=? code c) && (code c <=? 90).

(** The regex class [[a-z]]. *)
Definition is_lower (c : ascii) : bool := (97 <=? code c) && (code c <=? 122).

Definition is_digit (c : ascii) : bool := (48 <=? code c) && (code c <=? 57).

(** The regex class [\w] on ASCII: letters, digits and the underscore. *)
Definition is_word (c : ascii) : bool :=
  is_upper c || is_lower c || is_digit c || (code c =? 95).

(** The regex class [[.?!]] of the sentence splitter. *)
Definition is_sentence_end (c : ascii) : bool :=
  (code c =? 46) || (code c =? 63) || (code c =? 33).

Definition chr_lower (c : ascii) : ascii :=
  if is_upper c then ascii_of_N (code c + 32) else c.

Definition chr_upper (c : ascii) : ascii :=
  if is_lower c then ascii_of_N (code c - 32) else c.

Local Close Scope N_scope.

(** ** The [str] methods the program calls *)

Definition snoc (s : string) (c : ascii) : string := s +:+ String c "".

Definition is_empty (s : string) : bool :=
  match s with "" => true | String _ _ => false end.

Fixpoint str_all (p : ascii → bool) (s : string) : bool :=
  match s with
  | "" => true
  | String c s' => p c && str_all p s'
  end.

Fixpoint str_map (f : ascii → ascii) (s : string) : string :=
  match s with
  | "" => ""
  | String c s' => String (f c) (str_map f s')
  end.

(** [s.lower()], on ASCII text. *)
Definition lower (s : string) : string := str_map chr_lower s.

(** [s.capitalize()], on ASCII text: the first character upper-cased, every
    other character lower-cased. *)
Definition capitalize (s : string) : string :=
  match s with
  | "" => ""
  | String c s' => String (chr_upper c) (lower s')
  end.

(** [s.replace(old, new)] for one-character [old] and [new]. *)
Definition replace_chr (old new : ascii) (s : string) : string :=
  str_map (λ c, if Ascii.eqb c old then new else c) s.

Fixpoint lstrip (s : string) : string :=
  match s with
  | "" => ""
  | String c s' => if py_isspace c then lstrip s' else s
  end.

Fixpoint rstrip (s : string) : string :=
  match s with
  | "" => ""
  | String c s' =>
      match rstrip s' with
      | "" => if py_isspace c then "" else String c ""
      | r => String c r
      end
  end.

(** [s.strip()] *)
Definition strip (s : string) : string := rstrip (lstrip s).

(** [s.split()]: the maximal runs of non-whitespace characters.  [cur] is the
    token being read. *)
Fixpoint str_split_from (cur : string) (s : string) : list string :=
  match s with
  | "" => if is_empty cur then [] else [cur]
  | String c s' =>
      if py_isspace c
      then (if is_empty cur then [] else [cur]) ++ str_split_from "" s'
      else str_split_from (snoc cur c) s'
  end.

Definition str_split (s : string) : list string := str_split_from "" s.

(** [sep.join(l)] *)
Fixpoint join (sep : string) (l : list string) : string :=
  match l with
  | [] => ""
  | [x] => x
  | x :: l' => x +:+ sep +:+ join sep l'
  end.

(** [re.split(r'[.?!]', s)]: the pieces between the separators, the empty
    ones included. *)
Fixpoint re_split_from (cur : string) (s : string) : list string :=
  match s with
  | "" => [cur]
  | String c s' =>
      if is_sentence_end c
      then cur :: re_split_from "" s'
      else re_split_from (snoc cur c) s'
  end.

Definition re_split (s : string) : list string := re_split_from "" s.

Fixpoint starts_with (p s : string) : bool :=
  match p, s with
  | "", _ => true
  | String a p', String b s' => Ascii.eqb a b && starts_with p' s'
  | String _ _, "" => false
  end.

(** [p in s] on strings: [p] occurs in [s] as a substring. *)
Fixpoint contains (p s : string) : bool :=
  starts_with p s ||
  match s with
  | "" => false
  | String _ s' => contains p s'
  end.

Fixpoint str_take (n : nat) (s : string) : string :=
  match n, s with
  | S k, String c s' => String c (str_take k s')
  | _, _ => ""
  end.

(** ** [re.findall(r'\b[A-Z]?[a-z]{3,}\b', s)] *)

Definition opt_word (c : option ascii) : bool :=
  match c with Some a => is_word a | None => false end.

Definition str_head (s : string) : option ascii :=
  match s with "" => None | String c _ => Some c end.

(** [\b] between the character [prev] before the position and the character
    [next] at it (either absent at an end of the string). *)
Definition at_boundary (prev next : option ascii) : bool :=
  xorb (opt_word prev) (opt_word next).

(** [[a-z]{need,}\b] at [s], greedy: it takes a lowercase letter whenever the
    rest of the pattern then matches, and otherwise stops here if [need] is
    used up and the position is a word boundary.  The result is the number of
    characters matched. *)
Fixpoint match_lowers (need : nat) (prev : option ascii) (s : string) : option nat :=
  let stop := if (need =? 0)%nat && at_boundary prev (str_head s) then Some 0%nat else None in
  match s with
  | "" => stop
  | String c s' =>
      if is_lower c then
        match match_lowers (pred need) (Some c) s' with
        | Some n => Some (S n)
        | None => stop
        end
      else stop
  end.

(** The whole pattern at [s], [prev] being the character before it: [\b],
    then [[A-Z]?] greedy (skipped when the rest fails after it), then
    [[a-z]{3,}\b]. *)
Definition match_here (prev : option ascii) (s : string) : option nat :=
  if at_boundary prev (str_head s) then
    match s with
    | String c s' =>
        if is_upper c then
          match match_lowers 3 (Some c) s' with
          | Some n => Some (S n)
          | None => match_lowers 3 prev s
          end
        else match_lowers 3 prev s
    | "" => match_lowers 3 prev s
    end
  else None.

(** The scan of [findall]: at each position try the pattern; after a match of
    [n] characters resume right behind it ([skip] counts the characters of the
    match still to pass), otherwise move on by one character. *)
Fixpoint findall_from (skip : nat) (prev : option ascii) (s : string) : list string :=
  match s with
  | "" => []
  | String c s' =>
      match skip with
      | S k => findall_from k (Some c) s'
      | O =>
          match match_here prev s with
          | Some n => str_take n s :: findall_from (pred n) (Some c) s'
          | None => findall_from 0 (Some c) s'
          end
      end
  end.

Definition findall_concepts (s : string) : list string := findall_from 0 None s.

(** ** Tab 1: the extraction loop *)

(** A relation is the tuple [(subj, pred, obj)]. *)
Abbreviation relation := (string * string * string)%type.

Definition subject (r : relation) : string := r.1.1.
Definition predicate (r : relation) : string := r.1.2.
Definition object (r : relation) : string := r.2.

(** [parts[1:-1]] *)
Definition middle (parts : list string) : list string := removelast (tail parts).

(** The body of [for s in sentences], from [parts = s.split()] on: the
    relation the sentence appends, if any. *)
Definition sentence_relation (s : string) : option relation :=
  let parts := str_split s in
  if (3 <=? length parts)%nat then
    let subj := capitalize (hd "" parts) in
    let pred := join " " (middle parts) in
    let obj := capitalize (List.last parts "") in
    Some (subj, pred, obj)
  else None.

(** [for w in words: concepts.add(w.lower())] *)
Definition add_concepts (concepts : gset string) (words : list string) : gset string :=
  foldl (λ cs w, {[lower w]} ∪ cs) concepts words.

(** One turn of [for s in sentences] on the pair [(concepts, relations)]. *)
Definition extract_step (acc : gset string * list relation) (s0 : string)
    : gset string * list relation :=
  let s := strip s0 in
  if is_empty s then acc
  else
    let concepts := add_concepts acc.1 (findall_concepts s) in
    match sentence_relation s with
    | Some r => (concepts, acc.2 ++ [r])
    | None => (concepts, acc.2)
    end.

(** Lines 34 to 50: [sentences = re.split(...)], the two empty accumulators
    and the loop. *)
Definition extract (user_text : string) : gset string * list relation :=
  foldl extract_step (∅, []) (re_split user_text).

Definition extract_concepts (user_text : string) : gset string := (extract user_text).1.
Definition extract_relations (user_text : string) : list relation := (extract user_text).2.

(** ** The RDF graph *)

(** A statement of an rdflib [Graph]: subject, predicate and object IRI. *)
Abbreviation statement := (string * string * string)%type.

(** [ex = Namespace("http://example.org/")]; [ex[name]] appends the name. *)
Definition ex (name : string) : string := "http://example.org/" +:+ name.

(** [RDF.type] and [RDFS.Class] of rdflib. *)
Definition RDF_type : string := "http://www.w3.org/1999/02/22-rdf-syntax-ns#type".
Definition RDFS_Class : string := "http://www.w3.org/2000/01/rdf-schema#Class".

(** [pred.replace(" ", "_")] *)
Definition underscored (pred : string) : string := replace_chr " " "_" pred.

Definition subject_type (r : relation) : statement := (ex (subject r), RDF_type, RDFS_Class).
Definition object_type (r : relation) : statement := (ex (object r), RDF_type, RDFS_Class).
Definition edge (r : relation) : statement :=
  (ex (subject r), ex (underscored (predicate r)), ex (object r)).

(** [rdf_graph.add(stmt)] *)
Definition graph_add (stmt : statement) (g : gset statement) : gset statement := {[stmt]} ∪ g.

(** One turn of the loop of lines 61 to 66. *)
Definition rdf_step (g : gset statement) (r : relation) : gset statement :=
  graph_add (edge r) (graph_add (object_type r) (graph_add (subject_type r) g)).

Definition rdf_graph (relations : list relation) : gset statement :=
  foldl rdf_step ∅ relations.

(** ** The OWL listing *)

Definition class_line (c : string) : string := "Class: " +:+ capitalize c.

Definition new_line : string := String "010" "".

Definition property_block (r : relation) : string :=
  "ObjectProperty: " +:+ underscored (predicate r) +:+ new_line +:+
  "  Domain: " +:+ subject r +:+ new_line +:+
  "  Range: " +:+ object r.

(** Lines 73 to 77.  [for c in concepts] visits each element of the set once,
    in an order Python does not specify; [elements] fixes one. *)
Definition owl_output (concepts : gset string) (relations : list relation) : list string :=
  let owl := foldl (λ out c, out ++ [class_line c]) [] (elements concepts) in
  foldl (λ out r, out ++ [property_block r]) owl relations.

Definition owl_text (concepts : gset string) (relations : list relation) : string :=
  join new_line (owl_output concepts relations).

(** [sorted(l)] on strings, by code point. *)
Fixpoint insert_sorted (x : string) (l : list string) : list string :=
  match l with
  | [] => [x]
  | y :: l' => if String.leb x y then x :: l else y :: insert_sorted x l'
  end.

Definition sorted (l : list string) : list string := foldr insert_sorted [] l.

(** ** Session state and the tabs *)

Inductive session_value :=
  | VRelations (relations : list relation)
  | VConcepts (concepts : gset string)
  | VText (text : string).

(** What a tab shows.  The texts are the program's, without the pictograph
    each of them starts with.  [Raised] is an uncaught exception: its
    argument is the class of the exception or, where the library that raises
    chooses the class, the call that raised. *)
Inductive ui :=
  | Subheader (title : string)
  | Success (msg : string)
  | Warning (msg : string)
  | Error (msg : string)
  | Code (body language : string)
  | Write (item : string)
  | DownloadButton (label data file_name mime : string)
  | Raised (exception : string).

(** [merged.add(stmt) for stmt in new_graph] *)
Definition merge_graphs (merged new_graph : gset statement) : gset statement :=
  set_fold graph_add merged new_graph.

(** Lines 137 to 140. *)
Definition query_matches (query : string) (r : relation) : bool :=
  contains (lower (subject r)) (lower query) || contains (lower (object r)) (lower query).

Definition describe (r : relation) : string :=
  subject r +:+ " --[" +:+ predicate r +:+ "]--> " +:+ object r.

Definition run_query (relations : list relation) (query : string) : list string :=
  foldl (λ found r, if query_matches query r then found ++ [describe r] else found)
        [] relations.

(** The characters with which rdflib takes a string for no valid IRI
    ([_invalid_uri_chars]): [<], [>], the double quote, the space, [{], [}],
    [|], the backslash, [^] and the backtick. *)
Definition is_iri_breaker (c : ascii) : bool :=
  ((code c =? 60) || (code c =? 62) || (code c =? 34) || (code c =? 32) ||
   (code c =? 123) || (code c =? 125) || (code c =? 124) || (code c =? 92) ||
   (code c =? 94) || (code c =? 96))%N.

(** [_is_valid_uri(iri)] *)
Definition iri_valid (iri : string) : bool :=
  str_all (λ c, negb (is_iri_breaker c)) iri.

Definition statement_writable (t : statement) : bool :=
  iri_valid t.1.1 && iri_valid t.1.2 && iri_valid t.2.

(** Whether [Graph.serialize(format='turtle')] writes the graph: the Turtle
    serialiser raises [Exception] at an IRI that is not valid ([URIRef.n3]). *)
Definition graph_writable (g : gset statement) : bool :=
  forallb statement_writable (elements g).

Section Tabs.

(** [Graph.serialize(format='turtle')] and [Graph.parse(..., format='turtle')]
    of rdflib: [serialize g] is the Turtle text of a graph the serialiser
    writes; [parse] is [None] where rdflib raises. *)
Variable serialize : gset statement → string.
Variable parse : string → option (gset statement).

(** Tab 1, lines 33 to 87, for the state of the button and the text area.
    When [rdf_graph.serialize] raises at line 68, the concepts and the second
    subheader are on the page and nothing has been stored. *)
Definition generate (generate_btn : bool) (user_text : string)
    (st : gmap string session_value) : gmap string session_value * list ui :=
  if generate_btn && negb (is_empty (strip user_text)) then
    let '(concepts, relations) := extract user_text in
    if graph_writable (rdf_graph relations) then
      let rdf_data := serialize (rdf_graph relations) in
      let owl := owl_text concepts relations in
      (<["owl" := VText owl]>
         (<["rdf" := VText rdf_data]>
            (<["concepts" := VConcepts concepts]>
               (<["relations" := VRelations relations]> st))),
       [ Subheader "Extracted Concepts";
         Success (join ", " (sorted (elements concepts)));
         Subheader "RDF Triples";
         Code rdf_data "turtle";
         Subheader "OWL Representation";
         Code owl "owl" ])
    else
      (st, [ Subheader "Extracted Concepts";
             Success (join ", " (sorted (elements concepts)));
             Subheader "RDF Triples";
             Raised "Exception" ])
  else if generate_btn then
    (st, [Warning "Please enter text before generating ontology."])
  else (st, []).

(** Tab 3, lines 134 to 148, for the question typed and the state of the
    "Run Query" button. *)
Definition semantic_query (query : string) (run_btn : bool)
    (st : gmap string session_value) : gmap string session_value * list ui :=
  match st !! "relations" with
  | Some v =>
      if run_btn then
        match v with
        | VRelations relations =>
            let found := run_query relations query in
            if bool_decide (found = [])
            then (st, [Error "No matching semantic relations found."])
            else (st, Success "Query Results:" :: map Write found)
        | _ => (st, [Raised "ValueError"])
        end
      else (st, [])
  | None => (st, [Warning "Generate ontology first in Tab 1."])
  end.

(** [merge(baseRdfText, uploadedRdfText)], lines 163 to 168: the uploaded
    text is parsed first, then the base text, then the loop runs. *)
Definition merge (base_rdf uploaded : string) : option (gset statement) :=
  match parse uploaded with
  | Some new_graph =>
      match parse base_rdf with
      | Some merged => Some (merge_graphs merged new_graph)
      | None => None
      end
  | None => None
  end.

(** Tab 4, lines 153 to 172; [uploaded] is the content of the uploaded file,
    if there is one.  The success notice of line 169 comes before
    [merged.serialize] of line 170, which raises on a merged graph it will not
    write. *)
Definition export_merge (uploaded : option string)
    (st : gmap string session_value) : gmap string session_value * list ui :=
  match st !! "rdf", st !! "owl" with
  | Some (VText rdf), Some (VText owl) =>
      let shown :=
        [ DownloadButton "Download RDF (.ttl)" rdf "ontology.ttl" "text/turtle";
          DownloadButton "Download OWL (.owl)" owl "ontology.owl" "application/rdf+xml";
          Subheader "Ontology Merge" ] in
      match uploaded with
      | Some up =>
          match merge rdf up with
          | Some merged =>
              (st, shown ++ [ Success "Ontologies merged successfully!";
                              if graph_writable merged
                              then Code (serialize merged) "turtle"
                              else Raised "Exception" ])
          | None => (st, shown ++ [Raised "Graph.parse"])
          end
      | None => (st, shown)
      end
  | Some _, Some _ => (st, [Raised "AttributeError"])
  | _, _ => (st, [Warning "Generate ontology first in Tab 1."])
  end.

End Tabs.

(** ** Tab 2: the graphs handed to the drawing libraries *)

(** A networkx [DiGraph] as far as the program uses it: the nodes, and for
    each edge [(u, v)] the value of its one attribute ['label'].  This map is
    also what [nx.get_edge_attributes(G, 'label')] returns. *)
Record nx_digraph := {
  nx_nodes : gset string;
  nx_label : gmap (string * string) string
}.

(** [nx.DiGraph()] *)
Definition nx_empty : nx_digraph := {| nx_nodes := ∅; nx_label := ∅ |}.

(** [G.add_edge(u, v, label=l)]: the two nodes are added if they are missing;
    the edge is added, or, if it is there already, its label is overwritten. *)
Definition nx_add_edge (G : nx_digraph) (u v l : string) : nx_digraph :=
  {| nx_nodes := {[v]} ∪ ({[u]} ∪ nx_nodes G);
     nx_label := <[(u, v) := l]> (nx_label G) |}.

(** Lines 98 to 100. *)
Definition nx_graph (relations : list relation) : nx_digraph :=
  foldl (λ G r, nx_add_edge G (subject r) (object r) (predicate r)) nx_empty relations.

(** A pyvis [Network(directed=True)]: the nodes as (id, label) in the order
    they were added, and the edges as (from, to, label). *)
Record pyvis_network := {
  pv_nodes : list (string * string);
  pv_edges : list (string * string * string)
}.

Definition pv_empty : pyvis_network := {| pv_nodes := []; pv_edges := [] |}.

(** [net.add_node(n_id, label=label)]: a node whose id is known already is
    left as it is. *)
Definition pv_add_node (net : pyvis_network) (n_id label : string) : pyvis_network :=
  if bool_decide (n_id ∈ (pv_nodes net).*1) then net
  else {| pv_nodes := pv_nodes net ++ [(n_id, label)]; pv_edges := pv_edges net |}.

(** [net.add_edge(source, to, label=label)]: pyvis asserts that both nodes
    exist ([None] stands for the [AssertionError]) and, the network being
    directed, appends the edge without looking for an equal one. *)
Definition pv_add_edge (net : pyvis_network) (source to label : string)
    : option pyvis_network :=
  if bool_decide (source ∈ (pv_nodes net).*1) && bool_decide (to ∈ (pv_nodes net).*1)
  then Some {| pv_nodes := pv_nodes net; pv_edges := pv_edges net ++ [(source, to, label)] |}
  else None.

(** One turn of the loop of lines 111 to 114. *)
Definition pv_step (net : option pyvis_network) (r : relation) : option pyvis_network :=
  match net with
  | Some net =>
      pv_add_edge (pv_add_node (pv_add_node net (subject r) (subject r))
                               (object r) (object r))
                  (subject r) (object r) (predicate r)
  | None => None
  end.

Definition pv_network (relations : list relation) : option pyvis_network :=
  foldl pv_step (Some pv_empty) relations.






(** * Notions used in the statements *)

(** A string is blank when it is empty or holds whitespace only. *)
Definition blank (s : string) : bool := str_all py_isspace s.

(** No whitespace anywhere in the string. *)
Definition spaceless (s : string) : bool := str_all (λ c, negb (py_isspace c)) s.

(** [occurs p s]: [s] is [a + p + b] for some strings [a] and [b]. *)
Definition occurs (p s : string) : Prop := ∃ a b, s = a +:+ p +:+ b.

(** A relation endpoint as the extractor builds them: a non-empty string
    without whitespace. *)
Definition token_like (t : string) : Prop := t ≠ "" ∧ spaceless t = true.

(** The sentences the loop works on: the pieces of the text between [.], [?]
    and [!], stripped, the empty ones left out. *)
Definition sentences (user_text : string) : list string :=
  List.filter (λ s, negb (is_empty s)) (strip <$> re_split user_text).

(** ** A concrete serialiser and parser for the examples

    N-Triples is the line-based subset of Turtle: one statement per line,
    each IRI between angle brackets.  [nt_serialize] and [nt_parse] stand in
    for rdflib where an example needs to run a tab. *)

Definition nt_line (t : statement) : string :=
  "<" +:+ t.1.1 +:+ "> <" +:+ t.1.2 +:+ "> <" +:+ t.2 +:+ "> .".

Definition nt_serialize (g : gset statement) : string :=
  join new_line (nt_line <$> elements g).

(** The IRIs of a text, in order: what stands between [<] and [>]. *)
Fixpoint nt_iris (cur : option string) (s : string) : list string :=
  match s with
  | "" => []
  | String c s' =>
      match cur with
      | None => if Ascii.eqb c "<" then nt_iris (Some "") s' else nt_iris None s'
      | Some iri =>
          if Ascii.eqb c ">" then iri :: nt_iris None s' else nt_iris (Some (snoc iri c)) s'
      end
  end.

Fixpoint nt_statements (iris : list string) : option (gset statement) :=
  match iris with
  | [] => Some ∅
  | s :: p :: o :: rest => graph_add (s, p, o) <$> nt_statements rest
  | _ => None
  end.

Definition nt_parse (text : string) : option (gset statement) :=
  nt_statements (nt_iris None text).

(** The transformation the specification describes for subject and object:
    the first letter upper-cased, the rest left as it is. *)
Definition upper_first (t : string) : string :=
  match t with
  | "" => ""
  | String c rest => String (chr_upper c) rest
  end.

(** No uppercase letter in the string. *)
Definition no_upper (s : string) : bool := str_all (λ c, negb (is_upper c)) s.

(** The words of a string: its maximal runs of word characters, in order.
    [cur] is the run being read. *)
Fixpoint word_runs_from (cur : string) (s : string) : list string :=
  match s with
  | "" => if is_empty cur then [] else [cur]
  | String c s' =>
      if is_word c then word_runs_from (snoc cur c) s'
      else (if is_empty cur then [] else [cur]) ++ word_runs_from "" s'
  end.

Definition word_runs (s : string) : list string := word_runs_from "" s.

(** The shape the pattern asks of a whole word: three or more lowercase
    letters, after at most one uppercase letter. *)
Definition concept_shape (w : string) : bool :=
  match w with
  | "" => false
  | String c w' =>
      (is_upper c && str_all is_lower w' && (3 <=? String.length w')%nat)
      || (str_all is_lower w && (3 <=? String.length w)%nat)
  end.

(** The shape the specification words: an optional uppercase letter, then two
    or more lowercase letters, three characters at least in all. *)
Definition worded_shape (w : string) : bool :=
  match w with
  | "" => false
  | String c w' =>
      (is_upper c && str_all is_lower w' && (2 <=? String.length w')%nat)
      || (str_all is_lower w && (3 <=? String.length w)%nat)
  end.

(** The longest prefix of word characters, and what follows it. *)
Fixpoint word_prefix (s : string) : string :=
  match s with
  | "" => ""
  | String c s' => if is_word c then String c (word_prefix s') else ""
  end.

Fixpoint after_word (s : string) : string :=
  match s with
  | "" => ""
  | String c s' => if is_word c then after_word s' else s
  end.

(** The last character of [s], or [d] when [s] is empty. *)
Fixpoint str_last (d : option ascii) (s : string) : option ascii :=
  match s with
  | "" => d
  | String c s' => str_last (Some c) s'
  end.

(** None of [.], [?] and [!] in the string. *)
Definition terminator_free (s : string) : bool :=
  str_all (λ c, negb (is_sentence_end c)) s.

(** Nothing but sentence terminators and whitespace in the string. *)
Definition separators_only (s : string) : bool :=
  str_all (λ c, is_sentence_end c || py_isspace c) s.

(** [s.upper()], on ASCII text. *)
Definition upper (s : string) : string := str_map chr_upper s.

(** The relations that run from [u] to [v]. *)
Definition parallel (u v : string) (relations : list relation) : list relation :=
  filter (λ r, subject r = u ∧ object r = v) relations.

(** A string of ASCII characters: on these the character classes and case
    mappings of this file are Python's. *)
Definition ascii_only (s : string) : bool := str_all (λ c, (code c <? 128)%N) s.

(** None of the characters in the string that make an IRI invalid, the space
    apart. *)
Definition breaker_free (s : string) : bool :=
  str_all (λ c, negb (is_iri_breaker c) || Ascii.eqb c " ") s.

(** The three IRIs a relation puts into the graph are valid. *)
Definition relation_writable (r : relation) : bool :=
  iri_valid (ex (subject r)) && iri_valid (ex (underscored (predicate r))) &&
  iri_valid (ex (object r)).

(** A relation as an edge: from the subject to the object, labelled with the
    predicate. *)
Definition edge_triple (r : relation) : string * string * string :=
  (subject r, object r, predicate r).

(** The ids of the nodes of a pyvis network. *)
Definition pv_ids (net : pyvis_network) : list string := (pv_nodes net).*1.

(** * Properties *)

(** ** Characters and strings *)

Local Ltac each_char c :=
  destruct c as [[] [] [] [] [] [] [] []]; vm_compute; try reflexivity; try discriminate.

Lemma is_lower_word c : is_lower c = true → is_word c = true.
Proof. unfold is_word. intros ->. by destruct (is_upper c). Qed.

Lemma is_upper_word c : is_upper c = true → is_word c = true.
Proof. unfold is_word. by intros ->. Qed.

Lemma is_upper_not_lower c : is_upper c = true → is_lower c = false.
Proof. each_char c. Qed.

Lemma py_isspace_chr_lower c : py_isspace (chr_lower c) = py_isspace c.
Proof. each_char c. Qed.

Lemma py_isspace_chr_upper c : py_isspace (chr_upper c) = py_isspace c.
Proof. each_char c. Qed.

Lemma is_upper_chr_lower c : is_upper (chr_lower c) = false.
Proof. each_char c. Qed.

Lemma chr_lower_chr_upper c : is_upper c = false → chr_lower (chr_upper c) = c.
Proof. each_char c. Qed.

Lemma chr_lower_id c : is_upper c = false → chr_lower c = c.
Proof. unfold chr_lower. by intros ->. Qed.

Lemma app_cons c s t : String c s +:+ t = String c (s +:+ t).
Proof. reflexivity. Qed.

Lemma app_empty_l t : "" +:+ t = t.
Proof. reflexivity. Qed.

Lemma app_empty_r s : s +:+ "" = s.
Proof. induction s as [|c s IH]; [done|]. by rewrite app_cons, IH. Qed.

Lemma app_assoc_str s t u : (s +:+ t) +:+ u = s +:+ (t +:+ u).
Proof. induction s as [|c s IH]; [done|]. by rewrite !app_cons, IH. Qed.

Lemma snoc_cons c s d : snoc (String c s) d = String c (snoc s d).
Proof. reflexivity. Qed.

Lemma snoc_not_empty s c : snoc s c ≠ "".
Proof. by destruct s. Qed.

Lemma snoc_app s c t : snoc s c +:+ t = s +:+ String c t.
Proof. unfold snoc. by rewrite app_assoc_str. Qed.

Lemma str_all_app p s t : str_all p (s +:+ t) = str_all p s && str_all p t.
Proof.
  induction s as [|c s IH]; [done|].
  rewrite app_cons. simpl. by rewrite IH, andb_assoc.
Qed.

Lemma str_all_snoc p s c : str_all p (snoc s c) = str_all p s && p c.
Proof. unfold snoc. rewrite str_all_app. simpl. by rewrite andb_true_r. Qed.

Lemma str_all_map p f s : str_all p (str_map f s) = str_all (λ c, p (f c)) s.
Proof. induction s as [|c s IH]; [done|]. simpl. by rewrite IH. Qed.

Lemma str_all_ext p q s : (∀ c, p c = q c) → str_all p s = str_all q s.
Proof. intros E. induction s as [|c s IH]; [done|]. simpl. by rewrite E, IH. Qed.

Lemma is_empty_true s : is_empty s = true ↔ s = "".
Proof. by destruct s. Qed.

Lemma is_empty_false s : is_empty s = false ↔ s ≠ "".
Proof. by destruct s. Qed.

Lemma lstrip_blank s : blank s = true → lstrip s = "".
Proof.
  unfold blank. induction s as [|c s IH]; [done|].
  simpl. intros [Hc Hs]%andb_true_iff. rewrite Hc. by apply IH.
Qed.

Lemma lstrip_empty_blank s : lstrip s = "" → blank s = true.
Proof.
  unfold blank. induction s as [|c s IH]; [done|].
  simpl. destruct (py_isspace c); [|done]. simpl. apply IH.
Qed.

Lemma rstrip_empty_blank s : rstrip s = "" → blank s = true.
Proof.
  unfold blank. induction s as [|c s IH]; [done|].
  simpl. destruct (rstrip s) eqn:E; [|done].
  destruct (py_isspace c); [|done]. intros _. by apply IH.
Qed.

(** [strip] leaves nothing exactly of the blank strings: the guard
    [user_text.strip()] of Tab 1 is false exactly on them. *)
Lemma strip_empty_iff s : strip s = "" ↔ blank s = true.
Proof.
  unfold strip. split.
  - intros H%rstrip_empty_blank. unfold blank in *.
    induction s as [|c s IH]; [done|].
    simpl in *. destruct (py_isspace c) eqn:Ec; [by apply IH|].
    simpl in H. by rewrite Ec in H.
  - intros H. by rewrite lstrip_blank.
Qed.

Lemma lower_blank s : blank (lower s) = blank s.
Proof.
  unfold blank, lower. rewrite str_all_map.
  apply str_all_ext, py_isspace_chr_lower.
Qed.

Lemma lower_spaceless s : spaceless (lower s) = spaceless s.
Proof.
  unfold spaceless, lower. rewrite str_all_map.
  apply str_all_ext. intros c. by rewrite py_isspace_chr_lower.
Qed.

Lemma capitalize_spaceless s : spaceless (capitalize s) = spaceless s.
Proof.
  destruct s as [|c s]; [done|].
  unfold spaceless. simpl. rewrite py_isspace_chr_upper. f_equal. apply lower_spaceless.
Qed.

Lemma lower_empty s : lower s = "" ↔ s = "".
Proof. by destruct s. Qed.

Lemma capitalize_empty s : capitalize s = "" ↔ s = "".
Proof. by destruct s. Qed.

(** A non-empty string without whitespace starts nowhere in a blank one. *)
Lemma starts_with_blank p s :
  p ≠ "" → spaceless p = true → blank s = true → starts_with p s = false.
Proof.
  destruct p as [|a p]; [done|]. intros _ Hp Hs.
  destruct s as [|b s]; [done|]. unfold spaceless, blank in *. simpl in *.
  apply andb_true_iff in Hp as [Ha _]. apply andb_true_iff in Hs as [Hb _].
  destruct (Ascii.eqb_spec a b) as [->|]; [|done].
  by rewrite Hb in Ha.
Qed.

Lemma contains_blank p s :
  p ≠ "" → spaceless p = true → blank s = true → contains p s = false.
Proof.
  intros Hne Hp. induction s as [|b s IH]; intros Hs.
  - by destruct p.
  - simpl. rewrite (starts_with_blank p (String b s)) by done.
    unfold blank in *. simpl in Hs. apply andb_true_iff in Hs as [_ Hs]. by apply IH.
Qed.

Lemma starts_with_spec p s : starts_with p s = true ↔ ∃ b, s = p +:+ b.
Proof.
  revert s. induction p as [|a p IH]; intros s.
  - split; [by exists s|done].
  - destruct s as [|c s]; simpl.
    + split; [done|]. by intros [b Hb].
    + rewrite andb_true_iff, IH. split.
      * intros [->%Ascii.eqb_eq [b ->]]. by exists b.
      * intros [b Hb]. rewrite app_cons in Hb. injection Hb as -> ->.
        split; [apply Ascii.eqb_refl|by exists b].
Qed.

Lemma contains_spec p s : contains p s = true ↔ occurs p s.
Proof.
  unfold occurs. induction s as [|c s IH].
  - simpl. rewrite orb_false_r, starts_with_spec. split.
    + intros [b Hb]. by exists "", b.
    + intros [[|x a] [b Hb]]; [by exists b|done].
  - change (contains p (String c s)) with (starts_with p (String c s) || contains p s).
    rewrite orb_true_iff, starts_with_spec, IH. split.
    + intros [[b Hb]|(a & b & Hb)].
      * by exists "", b.
      * exists (String c a), b. by rewrite app_cons, Hb.
    + intros ([|x a] & b & Hb).
      * left. by exists b.
      * right. rewrite app_cons in Hb. injection Hb as -> ->. by exists a, b.
Qed.

(** ** Tokens and sentences *)

Lemma str_split_from_token cur s t :
  spaceless cur = true → t ∈ str_split_from cur s → token_like t.
Proof.
  revert cur. induction s as [|c s IH]; intros cur Hcur; simpl.
  - destruct cur; simpl; [by intros ?%elem_of_nil|].
    by intros ->%list_elem_of_singleton.
  - destruct (py_isspace c) eqn:Ec.
    + intros [Ht|Ht]%elem_of_app; [|by apply (IH "")].
      destruct cur; simpl in Ht; [by apply elem_of_nil in Ht|].
      by apply list_elem_of_singleton in Ht as ->.
    + apply IH. unfold spaceless. rewrite str_all_snoc, Ec. simpl.
      by rewrite andb_true_r.
Qed.

Lemma str_split_token s t : t ∈ str_split s → token_like t.
Proof. by apply str_split_from_token. Qed.

Lemma token_like_capitalize t : token_like t → token_like (capitalize t).
Proof.
  intros [Hne Hsp]. split; [by rewrite capitalize_empty|].
  by rewrite capitalize_spaceless.
Qed.

Lemma join_not_empty sep x l : x ≠ "" → join sep (x :: l) ≠ "".
Proof. destruct x; [done|]. intros _. by destruct l. Qed.

Lemma at_least_three (l : list string) :
  (3 ≤ length l)%nat → ∃ first mid lst, l = first :: mid ++ [lst] ∧ mid ≠ [].
Proof.
  destruct l as [|first l]; simpl; [lia|]. intros Hl.
  destruct (exists_last (l:=l)) as (mid & lst & ->).
  { destruct l; simpl in Hl; [lia|done]. }
  exists first, mid, lst. split; [done|].
  intros ->. simpl in Hl. lia.
Qed.

Lemma middle_spec (first lst : string) mid : middle (first :: mid ++ [lst]) = mid.
Proof. unfold middle. simpl. apply removelast_last. Qed.

Lemma last_spec (first lst : string) mid : List.last (first :: mid ++ [lst]) "" = lst.
Proof. change (first :: mid ++ [lst]) with ((first :: mid) ++ [lst]). apply last_last. Qed.

(** What [sentence_relation] gives on a sentence of three tokens or more. *)
Lemma sentence_relation_some s first mid lst :
  str_split s = first :: mid ++ [lst] → mid ≠ [] →
  sentence_relation s = Some (capitalize first, join " " mid, capitalize lst).
Proof.
  intros E Hmid. unfold sentence_relation. rewrite E, middle_spec, last_spec.
  destruct (Nat.leb_spec 3 (length (first :: mid ++ [lst]))) as [_|Hl]; [done|].
  destruct mid; [done|]. simpl in Hl. rewrite length_app in Hl. simpl in Hl. lia.
Qed.

Lemma sentence_relation_none s :
  (length (str_split s) < 3)%nat → sentence_relation s = None.
Proof.
  intros H. unfold sentence_relation.
  by destruct (Nat.leb_spec 3 (length (str_split s))); [lia|].
Qed.

Lemma sentence_relation_inv s r :
  sentence_relation s = Some r →
  ∃ first mid lst, str_split s = first :: mid ++ [lst] ∧ mid ≠ [] ∧
                   r = (capitalize first, join " " mid, capitalize lst).
Proof.
  intros H.
  destruct (Nat.leb_spec 3 (length (str_split s))) as [Hl|Hl].
  - destruct (at_least_three _ Hl) as (first & mid & lst & E & Hmid).
    exists first, mid, lst. rewrite (sentence_relation_some s first mid lst) in H by done.
    by injection H as <-.
  - by rewrite sentence_relation_none in H.
Qed.

Lemma extract_loop_relations acc l :
  (foldl extract_step acc l).2 =
  acc.2 ++ omap sentence_relation (List.filter (λ s, negb (is_empty s)) (strip <$> l)).
Proof.
  revert acc. induction l as [|s0 l IH]; intros acc; simpl.
  - by rewrite app_nil_r.
  - rewrite IH. unfold extract_step.
    destruct (is_empty (strip s0)); simpl; [done|].
    destruct (sentence_relation (strip s0)); simpl; [|done].
    by rewrite <-app_assoc.
Qed.

Lemma extract_relations_sentences user_text :
  extract_relations user_text = omap sentence_relation (sentences user_text).
Proof. unfold extract_relations, extract. by rewrite extract_loop_relations. Qed.

(** Every relation of the extractor comes from one sentence of three tokens
    or more. *)
Lemma extract_relations_inv user_text r :
  r ∈ extract_relations user_text →
  ∃ s first mid lst, s ∈ sentences user_text ∧
    str_split s = first :: mid ++ [lst] ∧ mid ≠ [] ∧
    r = (capitalize first, join " " mid, capitalize lst).
Proof.
  rewrite extract_relations_sentences. intros (s & Hs & Hr)%list_elem_of_omap.
  destruct (sentence_relation_inv s r Hr) as (first & mid & lst & ?).
  by exists s, first, mid, lst.
Qed.

Lemma extract_relations_endpoints user_text r :
  r ∈ extract_relations user_text →
  token_like (subject r) ∧ token_like (object r) ∧ predicate r ≠ "".
Proof.
  intros (s & first & mid & lst & _ & E & Hmid & ->)%extract_relations_inv.
  assert (∀ t, t ∈ first :: mid ++ [lst] → token_like t) as Htok.
  { intros t Ht. apply (str_split_token s). by rewrite E. }
  split_and!; simpl.
  - apply token_like_capitalize, Htok. set_solver.
  - apply token_like_capitalize, Htok. set_solver.
  - destruct mid as [|m mid]; [done|].
    apply join_not_empty. apply (Htok m). set_solver.
Qed.

(** ** The triple extractor *)

(** C1 (as amended).  The extractor emits one relation for each sentence of
    three or more whitespace-delimited tokens and none for a shorter one, in
    sentence order; the predicate is the single-space join of the tokens
    strictly between the first and the last, which for a sentence of exactly
    three tokens is the middle token (never the empty string); and the
    sentence "Plants absorb sunlight through photosynthesis" yields
    ("Plants", "absorb sunlight through", "Photosynthesis"). *)
Theorem extractor_one_relation_per_sentence :
  (∀ user_text,
     extract_relations user_text = omap sentence_relation (sentences user_text)) ∧
  (∀ s, (length (str_split s) < 3)%nat → sentence_relation s = None) ∧
  (∀ s first mid lst,
     str_split s = first :: mid ++ [lst] → mid ≠ [] →
     sentence_relation s = Some (capitalize first, join " " mid, capitalize lst)) ∧
  (∀ s first m lst,
     str_split s = [first; m; lst] →
     sentence_relation s = Some (capitalize first, m, capitalize lst) ∧ m ≠ "") ∧
  extract_relations "Plants absorb sunlight through photosynthesis"
  = [("Plants", "absorb sunlight through", "Photosynthesis")].
Proof.
  split_and!.
  - apply extract_relations_sentences.
  - apply sentence_relation_none.
  - apply sentence_relation_some.
  - intros s first m lst E. split.
    + by apply (sentence_relation_some s first [m] lst).
    + apply (str_split_token s m). rewrite E. set_solver.
  - by vm_compute.
Qed.

Lemma extractor_one_relation_per_sentence_witness :
  sentence_relation "Photosynthesis produces oxygen"
  = Some ("Photosynthesis", "produces", "Oxygen") ∧ "produces" ≠ "".
Proof.
  exact (proj1 (proj2 (proj2 (proj2 extractor_one_relation_per_sentence)))
           "Photosynthesis produces oxygen" "Photosynthesis" "produces" "oxygen" eq_refl).
Defined.

(** C1, the counterexample: "Oxygen supports life" has exactly three tokens
    and its predicate is "supports", not the empty string. *)
Lemma three_token_predicate_counterexample :
  str_split "Oxygen supports life" = ["Oxygen"; "supports"; "life"] ∧
  extract_relations "Oxygen supports life." = [("Oxygen", "supports", "Life")] ∧
  ¬ (∀ r, r ∈ extract_relations "Oxygen supports life." → predicate r = "").
Proof.
  split_and!; [by vm_compute..|].
  intros H. specialize (H ("Oxygen", "supports", "Life")).
  assert (extract_relations "Oxygen supports life." = [("Oxygen", "supports", "Life")])
    as E by (by vm_compute).
  rewrite E in H. by specialize (H (list_elem_of_here _ _)).
Qed.

(** C3 (as amended).  For every sentence of an ASCII text that has three
    whitespace-delimited tokens or more, the relation emitted for it has as
    its subject the first token of the sentence with the first character
    upper-cased and every other character lower-cased ([str.capitalize]), and
    as its object the last token transformed the same way. *)
Theorem sentence_endpoints_capitalized user_text s :
  ascii_only user_text = true →
  s ∈ sentences user_text → (3 ≤ length (str_split s))%nat →
  ∃ c1 rest1 mid c2 rest2,
    str_split s = String c1 rest1 :: mid ++ [String c2 rest2] ∧
    sentence_relation s
    = Some (String (chr_upper c1) (lower rest1), join " " mid,
            String (chr_upper c2) (lower rest2)) ∧
    (String (chr_upper c1) (lower rest1), join " " mid,
     String (chr_upper c2) (lower rest2)) ∈ extract_relations user_text.
Proof.
  intros _ Hs Hlen.
  destruct (at_least_three _ Hlen) as (first & mid & lst & E & Hmid).
  assert (token_like first) as [Hf _].
  { apply (str_split_token s). rewrite E. set_solver. }
  assert (token_like lst) as [Hl _].
  { apply (str_split_token s). rewrite E. set_solver. }
  destruct first as [|c1 rest1]; [done|]. destruct lst as [|c2 rest2]; [done|].
  pose proof (sentence_relation_some s _ mid _ E Hmid) as Hrel.
  exists c1, rest1, mid, c2, rest2. split_and!; [done..|].
  rewrite extract_relations_sentences. apply list_elem_of_omap. by exists s.
Qed.

Lemma sentence_endpoints_capitalized_witness :
  ∃ c1 rest1 mid c2 rest2,
    str_split "DNA stores information"
    = String c1 rest1 :: mid ++ [String c2 rest2] ∧
    sentence_relation "DNA stores information"
    = Some (String (chr_upper c1) (lower rest1), join " " mid,
            String (chr_upper c2) (lower rest2)) ∧
    (String (chr_upper c1) (lower rest1), join " " mid,
     String (chr_upper c2) (lower rest2))
      ∈ extract_relations "Plants absorb sunlight. DNA stores information.".
Proof.
  apply (sentence_endpoints_capitalized
           "Plants absorb sunlight. DNA stores information."
           "DNA stores information").
  - reflexivity.
  - vm_compute. apply list_elem_of_further, list_elem_of_here.
  - vm_compute. lia.
Defined.

(** C3, the counterexample: the first token "DNA" gives the subject "Dna",
    while upper-casing the first letter alone would leave "DNA". *)
Lemma acronym_subject_counterexample :
  str_split "DNA stores information" = ["DNA"; "stores"; "information"] ∧
  extract_relations "DNA stores information." = [("Dna", "stores", "Information")] ∧
  upper_first "DNA" = "DNA" ∧
  subject ("Dna", "stores", "Information") ≠ upper_first "DNA".
Proof. split_and!; by vm_compute. Qed.

(** ** Tab 1 on blank text *)

(** C6.  On an empty or whitespace-only text the generate action shows the
    warning, raises nothing, and leaves the session state as it was. *)
Theorem generate_blank_text serialize user_text (st : gmap string session_value) :
  blank user_text = true →
  generate serialize true user_text st
  = (st, [Warning "Please enter text before generating ontology."]).
Proof.
  intros H%strip_empty_iff. unfold generate. by rewrite H.
Qed.

Lemma generate_blank_text_witness :
  let st := (generate nt_serialize true "Cats chase mice." ∅).1 in
  blank "  " = true ∧
  generate nt_serialize true "  " st
  = (st, [Warning "Please enter text before generating ontology."]).
Proof.
  split; [reflexivity|]. by apply generate_blank_text.
Defined.

(** ** What Tab 1 stores *)

(** A closed boolean or list equation, by evaluation. *)
Local Ltac by_evaluation := vm_compute; reflexivity.

Lemma generate_stores serialize user_text (st : gmap string session_value) :
  blank user_text = false →
  graph_writable (rdf_graph (extract_relations user_text)) = true →
  (generate serialize true user_text st).1
  = <["owl" := VText (owl_text (extract_concepts user_text) (extract_relations user_text))]>
      (<["rdf" := VText (serialize (rdf_graph (extract_relations user_text)))]>
         (<["concepts" := VConcepts (extract_concepts user_text)]>
            (<["relations" := VRelations (extract_relations user_text)]> st))).
Proof.
  intros Hb Hw. unfold generate. unfold extract_concepts, extract_relations in *.
  destruct (is_empty (strip user_text)) eqn:E.
  - apply is_empty_true, strip_empty_iff in E. congruence.
  - simpl. destruct (extract user_text). simpl in *. by rewrite Hw.
Qed.

Lemma generate_lookup_relations serialize user_text (st : gmap string session_value) :
  blank user_text = false →
  graph_writable (rdf_graph (extract_relations user_text)) = true →
  (generate serialize true user_text st).1 !! "relations"
  = Some (VRelations (extract_relations user_text)).
Proof.
  intros Hb Hw. rewrite generate_stores by done.
  do 3 (rewrite lookup_insert_ne by done). by rewrite lookup_insert_eq.
Qed.

(** ** Tab 3: the query *)

Lemma query_loop_filter query found (relations : list relation) :
  foldl (λ found r, if query_matches query r then found ++ [describe r] else found)
        found relations
  = found ++ (describe <$> List.filter (query_matches query) relations).
Proof.
  revert found. induction relations as [|r relations IH]; intros found; simpl.
  - by rewrite app_nil_r.
  - rewrite IH. destruct (query_matches query r); [|done].
    simpl. by rewrite <-app_assoc.
Qed.

Lemma run_query_filter relations query :
  run_query relations query = describe <$> List.filter (query_matches query) relations.
Proof. unfold run_query. by rewrite query_loop_filter. Qed.

Lemma query_matches_occurs query r :
  query_matches query r = true ↔
  occurs (lower (subject r)) (lower query) ∨ occurs (lower (object r)) (lower query).
Proof. unfold query_matches. by rewrite orb_true_iff, !contains_spec. Qed.

Lemma filter_none {A} (f : A → bool) l :
  (∀ x, x ∈ l → f x = false) → List.filter f l = [].
Proof.
  induction l as [|x l IH]; intros H; simpl; [done|].
  rewrite (H x) by set_solver. apply IH. intros y Hy. apply H. set_solver.
Qed.

(** No endpoint of an extracted relation occurs in a blank question. *)
Lemma query_matches_blank user_text query r :
  blank query = true → r ∈ extract_relations user_text → query_matches query r = false.
Proof.
  intros Hq ([Hs1 Hs2] & [Ho1 Ho2] & _)%extract_relations_endpoints.
  unfold query_matches. rewrite !contains_blank; try done.
  all: by rewrite ?lower_blank, ?lower_spaceless, ?lower_empty.
Qed.

Lemma semantic_query_blank user_text query (st : gmap string session_value) :
  blank query = true →
  st !! "relations" = Some (VRelations (extract_relations user_text)) →
  semantic_query query true st = (st, [Error "No matching semantic relations found."]).
Proof.
  intros Hq Hst. unfold semantic_query. rewrite Hst, run_query_filter.
  rewrite filter_none; [done|].
  intros r Hr. by apply (query_matches_blank user_text).
Qed.

(** C5.  The query returns, in the order of the relation list, the
    description of exactly those relations whose lower-cased subject or
    lower-cased object occurs as a substring of the lower-cased question; and
    when nothing matches the tab shows the no-match notice and raises
    nothing. *)
Theorem query_returns_matches (relations : list relation) query
    (st : gmap string session_value) :
  st !! "relations" = Some (VRelations relations) →
  run_query relations query
  = describe <$> List.filter (query_matches query) relations ∧
  (∀ r, query_matches query r = true ↔
        occurs (lower (subject r)) (lower query) ∨
        occurs (lower (object r)) (lower query)) ∧
  semantic_query query true st
  = (st, if bool_decide (List.filter (query_matches query) relations = [])
         then [Error "No matching semantic relations found."]
         else Success "Query Results:"
              :: (Write <$> (describe <$> List.filter (query_matches query) relations))).
Proof.
  intros Hst. split_and!.
  - apply run_query_filter.
  - apply query_matches_occurs.
  - unfold semantic_query. rewrite Hst, run_query_filter.
    destruct (List.filter (query_matches query) relations); [done|].
    by rewrite !bool_decide_eq_false_2.
Qed.

Lemma query_returns_matches_witness :
  let st := (generate nt_serialize true "Cats chase mice. Dogs chase cats. Birds eat seeds." ∅).1 in
  semantic_query "Who chases the CATS?" true st
  = (st, [ Success "Query Results:";
           Write "Cats --[chase]--> Mice";
           Write "Dogs --[chase]--> Cats" ]).
Proof.
  intros st.
  refine (proj2 (proj2 (query_returns_matches
    [("Cats", "chase", "Mice"); ("Dogs", "chase", "Cats"); ("Birds", "eat", "Seeds")]
    "Who chases the CATS?" st _))).
  apply (generate_lookup_relations nt_serialize
           "Cats chase mice. Dogs chase cats. Birds eat seeds." ∅); by_evaluation.
Defined.

(** C9 (as amended).  The query tab has no check for a blank question: on a
    blank question it runs the match like on any other, and over the relations
    of a generated store nothing matches, so it shows the no-match notice;
    the session state is left as it was. *)
Theorem blank_question_no_match user_text query (st : gmap string session_value) :
  blank query = true →
  st !! "relations" = Some (VRelations (extract_relations user_text)) →
  run_query (extract_relations user_text) query = [] ∧
  semantic_query query true st = (st, [Error "No matching semantic relations found."]).
Proof.
  intros Hq Hst. split; [|by apply (semantic_query_blank user_text)].
  rewrite run_query_filter, filter_none; [done|].
  intros r Hr. by apply (query_matches_blank user_text).
Qed.

Lemma blank_question_no_match_witness :
  let st := (generate nt_serialize true "Cats chase mice." ∅).1 in
  run_query (extract_relations "Cats chase mice.") "  " = [] ∧
  semantic_query "  " true st = (st, [Error "No matching semantic relations found."]).
Proof.
  intros st.
  refine (blank_question_no_match "Cats chase mice." "  " st eq_refl _).
  apply (generate_lookup_relations nt_serialize "Cats chase mice." ∅); by_evaluation.
Defined.

(** C9, the counterexample: with a store generated from "Cats chase mice."
    the empty question gets the no-match error of the match, not a warning. *)
Lemma blank_question_counterexample :
  let st := (generate nt_serialize true "Cats chase mice." ∅).1 in
  semantic_query "" true st = (st, [Error "No matching semantic relations found."]) ∧
  ¬ (∃ msg, semantic_query "" true st = (st, [Warning msg])).
Proof.
  intros st.
  assert (semantic_query "" true st
          = (st, [Error "No matching semantic relations found."])) as E.
  { refine (semantic_query_blank "Cats chase mice." "" st eq_refl _).
    apply (generate_lookup_relations nt_serialize "Cats chase mice." ∅); by_evaluation. }
  clearbody st. split; [exact E|]. intros [msg H]. rewrite E in H. discriminate H.
Qed.

(** ** The concept set *)

Lemma add_concepts_elem concepts words c :
  c ∈ add_concepts concepts words ↔ c ∈ concepts ∨ ∃ w, w ∈ words ∧ c = lower w.
Proof.
  unfold add_concepts. revert concepts.
  induction words as [|w words IH]; intros concepts; simpl.
  - set_solver.
  - rewrite IH. set_solver.
Qed.

Lemma extract_loop_concepts acc l c :
  c ∈ (foldl extract_step acc l).1 ↔
  c ∈ acc.1 ∨
  ∃ s w, s ∈ List.filter (λ s, negb (is_empty s)) (strip <$> l) ∧
         w ∈ findall_concepts s ∧ c = lower w.
Proof.
  revert acc. induction l as [|s0 l IH]; intros acc; simpl.
  - set_solver.
  - rewrite IH. unfold extract_step.
    destruct (is_empty (strip s0)); simpl; [done|].
    assert (∀ o : option relation,
      (match o with
       | Some r => (add_concepts acc.1 (findall_concepts (strip s0)), acc.2 ++ [r])
       | None => (add_concepts acc.1 (findall_concepts (strip s0)), acc.2)
       end).1 = add_concepts acc.1 (findall_concepts (strip s0))) as -> by (by intros []).
    rewrite add_concepts_elem. set_solver.
Qed.

(** The concepts of a text: the lower-cased matches of the pattern in its
    sentences. *)
Lemma extract_concepts_elem user_text c :
  c ∈ extract_concepts user_text ↔
  ∃ s w, s ∈ sentences user_text ∧ w ∈ findall_concepts s ∧ c = lower w.
Proof.
  unfold extract_concepts, extract. rewrite extract_loop_concepts. simpl.
  unfold sentences. set_solver.
Qed.

(** ** The RDF graph *)

Lemma rdf_loop_elem g (relations : list relation) (t : statement) :
  t ∈ foldl rdf_step g relations ↔
  t ∈ g ∨ ∃ r, r ∈ relations ∧ (t = subject_type r ∨ t = object_type r ∨ t = edge r).
Proof.
  revert g. induction relations as [|r relations IH]; intros g; simpl.
  - set_solver.
  - rewrite IH. unfold rdf_step, graph_add. set_solver.
Qed.

Lemma rdf_graph_elem (relations : list relation) (t : statement) :
  t ∈ rdf_graph relations ↔
  ∃ r, r ∈ relations ∧ (t = subject_type r ∨ t = object_type r ∨ t = edge r).
Proof. unfold rdf_graph. rewrite rdf_loop_elem. set_solver. Qed.

(** No IRI of the example namespace is one of the two W3C IRIs. *)
Lemma ex_not_w3 name : ex name ≠ RDF_type ∧ ex name ≠ RDFS_Class.
Proof.
  split; intros H; apply (f_equal (str_take 8)) in H; vm_compute in H; discriminate H.
Qed.

Lemma rdf_subject_typed (relations : list relation) n p o :
  (n, p, o) ∈ rdf_graph relations → (n, RDF_type, RDFS_Class) ∈ rdf_graph relations.
Proof.
  rewrite !rdf_graph_elem. intros (r & Hr & H). exists r. split; [done|].
  destruct H as [H|[H|H]]; injection H as -> _ _; auto.
Qed.

Lemma rdf_edge_object_typed (relations : list relation) s p n :
  p ≠ RDF_type →
  (s, p, n) ∈ rdf_graph relations → (n, RDF_type, RDFS_Class) ∈ rdf_graph relations.
Proof.
  rewrite !rdf_graph_elem. intros Hp (r & Hr & H). exists r. split; [done|].
  destruct H as [H|[H|H]]; injection H as _ Hp' Hn; [done..|].
  subst n. auto.
Qed.

Lemma rdf_class_untyped (relations : list relation) :
  (RDFS_Class, RDF_type, RDFS_Class) ∉ rdf_graph relations.
Proof.
  rewrite rdf_graph_elem. intros (r & _ & [H|[H|H]]); injection H as H1 H2 H3.
  - by destruct (ex_not_w3 (subject r)) as [_ []].
  - by destruct (ex_not_w3 (object r)) as [_ []].
  - by destruct (ex_not_w3 (subject r)) as [_ []].
Qed.

(** C4 (as amended).  Each relation contributes a subject-type statement, an
    object-type statement and one edge statement, whose predicate IRI is the
    predicate with spaces replaced by underscores under the fixed namespace.
    Every node in subject position of some statement, and every node in
    object position of an edge (a statement whose predicate is not the type
    predicate), has a type assertion to the "Class" type.  The "Class" node
    itself stands in object position of the type statements and has none. *)
Theorem rdf_relation_nodes_typed (relations : list relation) (n : string) :
  ((∃ p o, (n, p, o) ∈ rdf_graph relations) ∨
   (∃ s p, p ≠ RDF_type ∧ (s, p, n) ∈ rdf_graph relations)) →
  (n, RDF_type, RDFS_Class) ∈ rdf_graph relations ∧
  ((RDFS_Class, RDF_type, RDFS_Class) ∉ rdf_graph relations) ∧
  (∀ t : statement, t ∈ rdf_graph relations ↔
     ∃ r, r ∈ relations ∧
       (t = (ex (subject r), RDF_type, RDFS_Class) ∨
        t = (ex (object r), RDF_type, RDFS_Class) ∨
        t = (ex (subject r), ex (replace_chr " " "_" (predicate r)), ex (object r)))).
Proof.
  intros H. split_and!.
  - destruct H as [(p & o & H)|(s & p & Hp & H)].
    + by apply (rdf_subject_typed relations n p o).
    + by apply (rdf_edge_object_typed relations s p n).
  - apply rdf_class_untyped.
  - apply rdf_graph_elem.
Qed.

Lemma rdf_relation_nodes_typed_witness :
  ("http://example.org/Sunlight", RDF_type, RDFS_Class)
    ∈ rdf_graph [("Plants", "absorb", "Sunlight")].
Proof.
  refine (proj1 (rdf_relation_nodes_typed [("Plants", "absorb", "Sunlight")]
                   "http://example.org/Sunlight" _)).
  right. exists (ex "Plants"), (ex "absorb"). split.
  - apply ex_not_w3.
  - apply rdf_graph_elem. exists ("Plants", "absorb", "Sunlight").
    split; [apply list_elem_of_here|]. right. right. reflexivity.
Defined.

(** C4, the counterexample: in the graph of the single relation
    ("Plants", "absorb", "Sunlight") the node "Class" is the object of a
    statement, and the graph has no type assertion for it. *)
Lemma class_node_untyped_counterexample :
  (∃ s p, (s, p, RDFS_Class) ∈ rdf_graph [("Plants", "absorb", "Sunlight")]) ∧
  (RDFS_Class, RDF_type, RDFS_Class) ∉ rdf_graph [("Plants", "absorb", "Sunlight")].
Proof.
  split; [|apply rdf_class_untyped].
  exists (ex "Plants"), RDF_type. apply rdf_graph_elem.
  exists ("Plants", "absorb", "Sunlight"). split; [apply list_elem_of_here|].
  left. reflexivity.
Qed.

(** ** The OWL listing *)

Lemma append_loop {A} (f : A → string) out (l : list A) :
  foldl (λ out x, out ++ [f x]) out l = out ++ (f <$> l).
Proof.
  revert out. induction l as [|x l IH]; intros out; simpl.
  - by rewrite app_nil_r.
  - by rewrite IH, <-app_assoc.
Qed.

Lemma owl_output_lines concepts (relations : list relation) :
  owl_output concepts relations
  = (class_line <$> elements concepts) ++ (property_block <$> relations).
Proof. unfold owl_output. by rewrite !append_loop. Qed.

Lemma lower_no_upper s : no_upper (lower s) = true.
Proof.
  unfold no_upper, lower. rewrite str_all_map.
  induction s as [|c s IH]; [done|]. simpl. by rewrite is_upper_chr_lower.
Qed.

Lemma lower_id s : no_upper s = true → lower s = s.
Proof.
  unfold no_upper, lower. induction s as [|c s IH]; [done|]. simpl.
  intros [Hc Hs]%andb_true_iff. apply negb_true_iff in Hc.
  by rewrite chr_lower_id, IH.
Qed.

Lemma capitalize_inj s t :
  no_upper s = true → no_upper t = true → capitalize s = capitalize t → s = t.
Proof.
  destruct s as [|c s], t as [|d t]; try done.
  unfold no_upper. simpl.
  intros [Hc Hs]%andb_true_iff [Hd Ht]%andb_true_iff [= Hcd Hst].
  apply negb_true_iff in Hc, Hd.
  rewrite !lower_id in Hst by done. subst t. f_equal.
  by rewrite <-(chr_lower_chr_upper c), <-(chr_lower_chr_upper d), Hcd.
Qed.

Lemma app_inv_head_str s a b : s +:+ a = s +:+ b → a = b.
Proof.
  induction s as [|c s IH]; [done|]. rewrite !app_cons. intros [= H]. by apply IH.
Qed.

Lemma extract_concepts_no_upper user_text c :
  c ∈ extract_concepts user_text → no_upper c = true.
Proof.
  intros (s & w & _ & _ & ->)%extract_concepts_elem. apply lower_no_upper.
Qed.

(** C7 (as amended).  The OWL listing is one "Class: X" line for each
    element of the concept set, X being the capitalized concept, followed by
    one object-property block for each entry of the relation list, in list
    order.  The relation side is not deduplicated: a relation that occurs
    again gives its block again.  The class side is: the set holds a concept
    once, however often it occurs in the text or in relations, so the class
    lines of a generated store are pairwise different. *)
Theorem owl_listing_lines (concepts : gset string) (relations : list relation) :
  owl_output concepts relations
  = (class_line <$> elements concepts) ++ (property_block <$> relations) ∧
  length (owl_output concepts relations) = (size concepts + length relations)%nat ∧
  NoDup (elements concepts) ∧
  (∀ r, (length (filter (λ x, x = r) relations)
         ≤ length (filter (λ l, l = property_block r) (property_block <$> relations)))%nat) ∧
  (∀ user_text, NoDup (class_line <$> elements (extract_concepts user_text))).
Proof.
  split_and!.
  - apply owl_output_lines.
  - rewrite owl_output_lines, length_app, !length_fmap. reflexivity.
  - apply NoDup_elements.
  - intros r. induction relations as [|x relations IH]; [simpl; lia|].
    rewrite fmap_cons, !filter_cons. destruct (decide (x = r)) as [->|Hx].
    + rewrite decide_True by done. simpl. lia.
    + destruct (decide (property_block x = property_block r)); simpl; lia.
  - intros user_text. apply NoDup_fmap_2_strong; [|apply NoDup_elements].
    intros a b Ha%elem_of_elements Hb%elem_of_elements H.
    apply app_inv_head_str in H.
    by apply capitalize_inj; [apply (extract_concepts_no_upper user_text)..|].
Qed.

(** C7, the counterexample: in "Cats chase mice. Cats chase mice." the
    concept "cats" recurs through two relations with the same subject; the
    listing repeats the property block and has the line "Class: Cats" once. *)
Lemma repeated_concept_counterexample :
  extract_relations "Cats chase mice. Cats chase mice."
  = [("Cats", "chase", "Mice"); ("Cats", "chase", "Mice")] ∧
  length (filter (λ l, l = "Class: Cats")
            (owl_output (extract_concepts "Cats chase mice. Cats chase mice.")
                        (extract_relations "Cats chase mice. Cats chase mice."))) = 1%nat ∧
  length (filter (λ l, l = property_block ("Cats", "chase", "Mice"))
            (owl_output (extract_concepts "Cats chase mice. Cats chase mice.")
                        (extract_relations "Cats chase mice. Cats chase mice."))) = 2%nat.
Proof. split_and!; by vm_compute. Qed.

(** ** Tab 4: the merge *)

Lemma merge_graphs_union (merged new_graph : gset statement) :
  merge_graphs merged new_graph = merged ∪ new_graph.
Proof.
  unfold merge_graphs.
  apply (set_fold_ind_L (λ acc X, acc = merged ∪ X)).
  - simpl. by rewrite (right_id_L ∅ (∪)).
  - intros x X acc _ ->. unfold graph_add. set_solver.
Qed.

(** C8.  For texts that parse, the merge gives the union of the statements
    of the two graphs, and the same set whichever of the two is the base. *)
Theorem merge_is_union (parse : string → option (gset statement))
    (a b : string) (ga gb : gset statement) :
  parse a = Some ga → parse b = Some gb →
  merge parse a b = Some (ga ∪ gb) ∧
  merge parse b a = merge parse a b ∧
  (∀ t, t ∈ ga ∪ gb ↔ t ∈ ga ∨ t ∈ gb).
Proof.
  intros Ha Hb. unfold merge. rewrite Ha, Hb, !merge_graphs_union.
  split_and!; [done| |set_solver].
  f_equal. set_solver.
Qed.

(** Runs [nt_parse] on a closed text: the IRIs are computed, the statement
    set is left as the [graph_add]s that build it. *)
Local Ltac nt_parse_eval :=
  unfold nt_parse;
  match goal with
  | |- nt_statements ?l = _ =>
      let l' := eval vm_compute in l in
      replace l with l' by (vm_compute; reflexivity)
  end;
  reflexivity.

Lemma merge_is_union_witness :
  let a := nt_serialize (rdf_graph [("Cats", "chase", "Mice")]) in
  let b := nt_serialize (rdf_graph [("Dogs", "chase", "Cats")]) in
  ∃ ga gb, nt_parse a = Some ga ∧ nt_parse b = Some gb ∧
    merge nt_parse a b = Some (ga ∪ gb) ∧
    merge nt_parse b a = merge nt_parse a b.
Proof.
  intros a b. eexists. eexists.
  assert (∀ A B C D : Prop, A → B → (A → B → C ∧ D) → A ∧ B ∧ C ∧ D) as split4 by tauto.
  apply split4.
  - nt_parse_eval.
  - nt_parse_eval.
  - intros Ha Hb.
    destruct (merge_is_union nt_parse a b _ _ Ha Hb) as (H1 & H2 & _).
    exact (conj H1 H2).
Defined.

(** C10.  A merge that succeeds leaves the session state as it was: every
    key reads as before.  The merged graph is only serialised for display,
    after the success notice; where the serialiser refuses the merged graph,
    its exception stands in the place of the code block, and the state is
    as before all the same. *)
Theorem merge_leaves_session_state
    (serialize : gset statement → string) (parse : string → option (gset statement))
    (st : gmap string session_value) (rdf owl up : string) (merged : gset statement) :
  st !! "rdf" = Some (VText rdf) → st !! "owl" = Some (VText owl) →
  merge parse rdf up = Some merged →
  (export_merge serialize parse (Some up) st).1 = st ∧
  (∀ key, (export_merge serialize parse (Some up) st).1 !! key = st !! key) ∧
  (export_merge serialize parse (Some up) st).2
  = [ DownloadButton "Download RDF (.ttl)" rdf "ontology.ttl" "text/turtle";
      DownloadButton "Download OWL (.owl)" owl "ontology.owl" "application/rdf+xml";
      Subheader "Ontology Merge";
      Success "Ontologies merged successfully!";
      if graph_writable merged
      then Code (serialize merged) "turtle"
      else Raised "Exception" ].
Proof.
  intros Hrdf Howl Hm. unfold export_merge. by rewrite Hrdf, Howl, Hm.
Qed.

Lemma merge_leaves_session_state_witness :
  let st := (generate nt_serialize true "Cats chase mice." ∅).1 in
  let up := nt_serialize (rdf_graph [("Dogs", "chase", "Cats")]) in
  ∃ rdf merged,
    st !! "rdf" = Some (VText rdf) ∧
    merge nt_parse rdf up = Some merged ∧
    (export_merge nt_serialize nt_parse (Some up) st).1 = st.
Proof.
  intros st up.
  assert (st !! "rdf"
          = Some (VText (nt_serialize (rdf_graph (extract_relations "Cats chase mice.")))))
    as Hrdf.
  { unfold st. rewrite generate_stores by by_evaluation.
    rewrite lookup_insert_ne by done. apply lookup_insert_eq. }
  assert (st !! "owl"
          = Some (VText (owl_text (extract_concepts "Cats chase mice.")
                                  (extract_relations "Cats chase mice."))))
    as Howl.
  { unfold st. rewrite generate_stores by by_evaluation. apply lookup_insert_eq. }
  clearbody st.
  assert (∃ g, nt_parse up = Some g) as [gu Hu] by (eexists; nt_parse_eval).
  assert (∃ g, nt_parse (nt_serialize (rdf_graph (extract_relations "Cats chase mice.")))
               = Some g) as [gb Hb] by (eexists; nt_parse_eval).
  assert (merge nt_parse
            (nt_serialize (rdf_graph (extract_relations "Cats chase mice."))) up
          = Some (merge_graphs gb gu)) as Hm.
  { unfold merge. by rewrite Hu, Hb. }
  eexists. eexists. split; [exact Hrdf|]. split; [exact Hm|].
  exact (proj1 (merge_leaves_session_state nt_serialize nt_parse st _ _ up _
                  Hrdf Howl Hm)).
Defined.

(** ** The concept pattern *)

Lemma word_prefix_split s : s = word_prefix s +:+ after_word s.
Proof.
  induction s as [|c s IH]; [done|]. simpl.
  destruct (is_word c); [|done]. by rewrite app_cons, <-IH.
Qed.

Lemma word_prefix_word s : str_all is_word (word_prefix s) = true.
Proof.
  induction s as [|c s IH]; [done|]. simpl.
  destruct (is_word c) eqn:E; [|done]. simpl. by rewrite E.
Qed.

Lemma after_word_head s : opt_word (str_head (after_word s)) = false.
Proof.
  induction s as [|c s IH]; [done|]. simpl.
  by destruct (is_word c) eqn:E.
Qed.

Lemma length_app_str s t :
  String.length (s +:+ t) = (String.length s + String.length t)%nat.
Proof. induction s as [|c s IH]; [done|]. rewrite app_cons. simpl. by rewrite IH. Qed.

Lemma str_take_app w rest : str_take (String.length w) (w +:+ rest) = w.
Proof.
  induction w as [|c w IH].
  - by destruct rest.
  - rewrite app_cons. simpl. by rewrite IH.
Qed.

Lemma str_head_app_cons c w rest : str_head (String c w +:+ rest) = Some c.
Proof. done. Qed.

(** [[a-z]{need,}\b] on a run [u] of word characters that ends at a word
    boundary: it matches the whole run or nothing. *)
Lemma match_lowers_run u rest need prev :
  str_all is_word u = true → opt_word (str_head rest) = false →
  (need = 0%nat → opt_word prev = true) →
  match_lowers need prev (u +:+ rest)
  = if str_all is_lower u && (need <=? String.length u)%nat
    then Some (String.length u) else None.
Proof.
  revert need prev. induction u as [|c u IH]; intros need prev Hu Hrest Hneed.
  - rewrite app_empty_l. simpl.
    assert (match_lowers need prev rest
            = if (need =? 0)%nat && at_boundary prev (str_head rest)
              then Some 0%nat else None) as ->.
    { destruct rest as [|d rest]; [done|]. simpl in *.
      destruct (is_lower d) eqn:Ed; [|done]. by rewrite is_lower_word in Hrest. }
    destruct need as [|need]; simpl; [|done].
    unfold at_boundary. by rewrite Hneed, Hrest.
  - rewrite app_cons. simpl in Hu. apply andb_true_iff in Hu as [Hc Hu].
    assert ((if (need =? 0)%nat && at_boundary prev (Some c)
             then Some 0%nat else None) = None) as Hstop.
    { destruct need as [|need]; [|done]. simpl. unfold at_boundary. simpl.
      by rewrite Hneed, Hc. }
    simpl match_lowers. rewrite Hstop. simpl str_all. simpl String.length.
    destruct (is_lower c) eqn:Ec; [|done].
    rewrite IH; [|done|done|by intros _; simpl].
    simpl. destruct (str_all is_lower u); simpl; [|done].
    destruct need as [|need]; simpl; [done|].
    by destruct (need <=? String.length u)%nat.
Qed.

(** The pattern at the start of a word: it matches the whole word if the
    word has the shape, and nothing otherwise. *)
Lemma match_here_word_start prev c w rest :
  opt_word prev = false → str_all is_word (String c w) = true →
  opt_word (str_head rest) = false →
  match_here prev (String c w +:+ rest)
  = if concept_shape (String c w) then Some (String.length (String c w)) else None.
Proof.
  intros Hprev Hw Hrest. pose proof Hw as Hw'.
  simpl in Hw'. apply andb_true_iff in Hw' as [Hc Hw'].
  pose proof (match_lowers_run (String c w) rest 3 prev Hw Hrest) as H1.
  pose proof (match_lowers_run w rest 3 (Some c) Hw' Hrest) as H2.
  rewrite app_cons in *. unfold match_here, at_boundary. simpl str_head. simpl opt_word.
  rewrite Hprev, Hc, H1, H2 by done. simpl xorb. cbv iota.
  unfold concept_shape.
  change (str_all is_lower (String c w)) with (is_lower c && str_all is_lower w).
  generalize (3 <=? String.length w)%nat, (3 <=? String.length (String c w))%nat.
  intros b1 b2.
  destruct (is_upper c) eqn:Eu; [rewrite (is_upper_not_lower c Eu)|].
  - by destruct (str_all is_lower w), b1, b2.
  - by destruct (is_lower c), (str_all is_lower w), b1, b2.
Qed.

(** The pattern matches nowhere else: not inside a word, and not at a
    character that is no word character. *)
Lemma match_here_inside prev s :
  opt_word prev = true → opt_word (str_head s) = true → match_here prev s = None.
Proof. intros Hp Hs. unfold match_here, at_boundary. by rewrite Hp, Hs. Qed.

Lemma match_here_non_word prev s :
  opt_word (str_head s) = false → match_here prev s = None.
Proof.
  intros Hs. unfold match_here. destruct (at_boundary prev (str_head s)); [|done].
  destruct s as [|c s]; [done|]. simpl in Hs.
  destruct (is_upper c) eqn:Eu; [by rewrite is_upper_word in Hs|].
  simpl. destruct (is_lower c) eqn:El; [by rewrite is_lower_word in Hs|done].
Qed.

(** Passing the characters of a match. *)
Lemma findall_from_skip u rest prev :
  findall_from (String.length u) prev (u +:+ rest) = findall_from 0 (str_last prev u) rest.
Proof.
  revert prev. induction u as [|c u IH]; intros prev; [done|].
  rewrite app_cons. simpl. apply IH.
Qed.

(** Scanning on from inside a word finds nothing before the word ends. *)
Lemma findall_from_inside u rest prev :
  opt_word prev = true → str_all is_word u = true →
  findall_from 0 prev (u +:+ rest) = findall_from 0 (str_last prev u) rest.
Proof.
  revert prev. induction u as [|c u IH]; intros prev Hprev Hu; [done|].
  simpl in Hu. apply andb_true_iff in Hu as [Hc Hu].
  rewrite app_cons. simpl findall_from.
  rewrite match_here_inside by done. simpl. by apply IH.
Qed.

(** The scan over one word [w] that starts at a word boundary: [w] itself
    if it has the shape, nothing otherwise, and on behind the word. *)
Lemma findall_from_word prev w rest :
  opt_word prev = false → w ≠ "" → str_all is_word w = true →
  opt_word (str_head rest) = false →
  findall_from 0 prev (w +:+ rest)
  = (if concept_shape w then [w] else []) ++ findall_from 0 (str_last prev w) rest.
Proof.
  intros Hprev Hne Hw Hrest. destruct w as [|c w]; [done|].
  pose proof (match_here_word_start prev c w rest Hprev Hw Hrest) as Hm.
  pose proof (str_take_app (String c w) rest) as Ht.
  rewrite app_cons in *. simpl findall_from. rewrite Hm.
  simpl in Hw. apply andb_true_iff in Hw as [Hc Hw].
  destruct (concept_shape (String c w)).
  - rewrite Ht. simpl. f_equal. apply findall_from_skip.
  - simpl. by apply findall_from_inside.
Qed.

Lemma word_runs_from_word cur u rest :
  str_all is_word u = true →
  word_runs_from cur (u +:+ rest) = word_runs_from (cur +:+ u) rest.
Proof.
  revert cur. induction u as [|c u IH]; intros cur Hu.
  - by rewrite app_empty_l, app_empty_r.
  - simpl in Hu. apply andb_true_iff in Hu as [Hc Hu].
    rewrite app_cons. simpl. rewrite Hc, IH by done. by rewrite snoc_app.
Qed.

Lemma word_runs_from_flush cur rest :
  cur ≠ "" → opt_word (str_head rest) = false →
  word_runs_from cur rest = cur :: word_runs_from "" rest.
Proof.
  intros Hcur Hrest. apply is_empty_false in Hcur.
  destruct rest as [|d rest]; simpl in *; rewrite ?Hrest, Hcur; done.
Qed.

Lemma findall_word_runs_bounded n s prev :
  (String.length s ≤ n)%nat →
  opt_word prev = false ∨ opt_word (str_head s) = false →
  findall_from 0 prev s = List.filter concept_shape (word_runs_from "" s).
Proof.
  revert s prev. induction n as [|n IH]; intros s prev Hn Hb.
  { by destruct s; [|simpl in Hn; lia]. }
  destruct s as [|c s]; [done|].
  destruct (is_word c) eqn:Ec.
  - destruct Hb as [Hprev|Hb]; [|simpl in Hb; congruence].
    pose proof (word_prefix_split (String c s)) as Hsplit.
    pose proof (word_prefix_word (String c s)) as Hw.
    pose proof (after_word_head (String c s)) as Hrest.
    assert (word_prefix (String c s) ≠ "") as Hne by (simpl; by rewrite Ec).
    assert (String.length (after_word (String c s)) ≤ n)%nat as Hlen.
    { apply (f_equal String.length) in Hsplit. rewrite length_app_str in Hsplit.
      destruct (word_prefix (String c s)); [done|]. simpl in *. lia. }
    rewrite Hsplit at 1 2.
    rewrite findall_from_word, word_runs_from_word by done.
    rewrite app_empty_l, word_runs_from_flush by done.
    rewrite (IH _ _ Hlen) by auto. cbn [List.filter].
    by destruct (concept_shape (word_prefix (String c s))).
  - simpl findall_from. rewrite match_here_non_word by (simpl; done).
    simpl word_runs_from. rewrite Ec. simpl.
    apply IH; [simpl in Hn; lia|]. left. done.
Qed.

(** [findall] gives the words of the string that have the shape, in order. *)
Lemma findall_concepts_word_runs s :
  findall_concepts s = List.filter concept_shape (word_runs s).
Proof.
  unfold findall_concepts, word_runs.
  apply (findall_word_runs_bounded (String.length s)); [done|by left].
Qed.

Lemma concept_shape_spec w :
  concept_shape w = true ↔
  (str_all is_lower w = true ∧ (3 ≤ String.length w)%nat) ∨
  (∃ c rest, w = String c rest ∧ is_upper c = true ∧
             str_all is_lower rest = true ∧ (3 ≤ String.length rest)%nat).
Proof.
  destruct w as [|c w].
  - simpl. split; [done|]. intros [[_ H]|(c & rest & H & _)]; [lia|done].
  - unfold concept_shape.
    rewrite orb_true_iff, !andb_true_iff, !Nat.leb_le. split.
    + intros [[[Hu Hl] Hn]|[Hl Hn]]; [right|left; done]. by exists c, w.
    + intros [[Hl Hn]|(c' & rest & [= -> ->] & Hu & Hl & Hn)]; [right|left]; done.
Qed.

Lemma elem_of_filter_bool {A} (f : A → bool) (l : list A) x :
  x ∈ List.filter f l ↔ x ∈ l ∧ f x = true.
Proof. by rewrite !list_elem_of_In, filter_In. Qed.

(** C2 (as amended).  For every sentence the concept extractor inserts the
    lower-casing of exactly those words (maximal runs of letters, digits and
    underscores) that consist of an optional single uppercase letter followed
    by three or more lowercase letters.  The lowercase letters alone must
    number three: "dog" and "Dogs" are extracted, and "Dog", one uppercase
    letter followed by exactly two lowercase letters, is not. *)
Theorem concepts_follow_pattern :
  (∀ s, findall_concepts s = List.filter concept_shape (word_runs s)) ∧
  (∀ concepts s c,
     c ∈ add_concepts concepts (findall_concepts s) ↔
     c ∈ concepts ∨ ∃ w, w ∈ word_runs s ∧ concept_shape w = true ∧ c = lower w) ∧
  (∀ user_text c,
     c ∈ extract_concepts user_text ↔
     ∃ s w, s ∈ sentences user_text ∧ w ∈ word_runs s ∧
            concept_shape w = true ∧ c = lower w) ∧
  (∀ w, concept_shape w = true ↔
     (str_all is_lower w = true ∧ (3 ≤ String.length w)%nat) ∨
     (∃ c rest, w = String c rest ∧ is_upper c = true ∧
                str_all is_lower rest = true ∧ (3 ≤ String.length rest)%nat)) ∧
  findall_concepts "Dog" = [] ∧
  findall_concepts "Dogs" = ["Dogs"] ∧
  findall_concepts "dog" = ["dog"].
Proof.
  split_and!; try reflexivity.
  - apply findall_concepts_word_runs.
  - intros concepts s c. rewrite add_concepts_elem. split.
    + intros [H|(w & Hw & ->)]; [by left|right].
      rewrite findall_concepts_word_runs in Hw.
      apply elem_of_filter_bool in Hw as [Hw Hs]. by exists w.
    + intros [H|(w & Hw & Hs & ->)]; [by left|right].
      exists w. split; [|done].
      rewrite findall_concepts_word_runs. by apply elem_of_filter_bool.
  - intros user_text c. rewrite extract_concepts_elem. split.
    + intros (s & w & Hs & Hw & ->).
      rewrite findall_concepts_word_runs in Hw.
      apply elem_of_filter_bool in Hw as [Hw Hsh]. by exists s, w.
    + intros (s & w & Hs & Hw & Hsh & ->). exists s, w.
      split_and!; [done| |done].
      rewrite findall_concepts_word_runs. by apply elem_of_filter_bool.
  - apply concept_shape_spec.
Qed.

(** C2, the counterexample: "Dog" is a word of one uppercase letter followed
    by exactly two lowercase letters; the extractor does not make it a
    concept. *)
Lemma short_capitalized_word_counterexample :
  worded_shape "Dog" = true ∧
  word_runs "Dog barks loudly" = ["Dog"; "barks"; "loudly"] ∧
  findall_concepts "Dog barks loudly" = ["barks"; "loudly"] ∧
  "dog" ∉ extract_concepts "Dog barks loudly.".
Proof.
  split_and!; try reflexivity.
  intros H. apply (bool_decide_pack _) in H. by vm_compute in H.
Qed.

(** * Further properties of the code *)

(** ** What the extractor keeps of the text *)

Lemma chr_lower_is_lower c :
  is_upper c || is_lower c = true → is_lower (chr_lower c) = true.
Proof. each_char c. Qed.

Lemma chr_upper_idemp c : chr_upper (chr_upper c) = chr_upper c.
Proof. each_char c. Qed.

Lemma chr_lower_idemp c : chr_lower (chr_lower c) = chr_lower c.
Proof. each_char c. Qed.

Lemma chr_lower_of_upper c : chr_lower (chr_upper c) = chr_lower c.
Proof. each_char c. Qed.

Lemma is_sentence_end_chr_lower c : is_sentence_end (chr_lower c) = is_sentence_end c.
Proof. each_char c. Qed.

Lemma is_sentence_end_chr_upper c : is_sentence_end (chr_upper c) = is_sentence_end c.
Proof. each_char c. Qed.

Lemma length_str_map f s : String.length (str_map f s) = String.length s.
Proof. induction s as [|c s IH]; [done|]. simpl. by rewrite IH. Qed.

Lemma str_map_app f s t : str_map f (s +:+ t) = str_map f s +:+ str_map f t.
Proof. induction s as [|c s IH]; [done|]. rewrite app_cons. simpl. by rewrite IH, app_cons. Qed.

Lemma str_map_ext f g s : (∀ c, f c = g c) → str_map f s = str_map g s.
Proof. intros E. induction s as [|c s IH]; [done|]. simpl. by rewrite E, IH. Qed.

Lemma str_map_map f g s : str_map f (str_map g s) = str_map (λ c, f (g c)) s.
Proof. induction s as [|c s IH]; [done|]. simpl. by rewrite IH. Qed.

Lemma lower_idemp s : lower (lower s) = lower s.
Proof. unfold lower. rewrite str_map_map. apply str_map_ext, chr_lower_idemp. Qed.

Lemma lower_upper s : lower (upper s) = lower s.
Proof. unfold lower, upper. rewrite str_map_map. apply str_map_ext, chr_lower_of_upper. Qed.

Lemma lower_app s t : lower (s +:+ t) = lower s +:+ lower t.
Proof. apply str_map_app. Qed.

Lemma capitalize_idemp t : capitalize (capitalize t) = capitalize t.
Proof. destruct t as [|c t]; [done|]. simpl. by rewrite chr_upper_idemp, lower_idemp. Qed.

Lemma str_all_impl (p q : ascii → bool) s :
  (∀ c, p c = true → q c = true) → str_all p s = true → str_all q s = true.
Proof.
  intros H. induction s as [|c s IH]; [done|]. simpl.
  intros [Hc Hs]%andb_true_iff. by rewrite (H c Hc), IH.
Qed.

Lemma lower_of_shape w :
  concept_shape w = true →
  str_all is_lower (lower w) = true ∧ (3 ≤ String.length (lower w))%nat.
Proof.
  intros H. unfold lower. rewrite length_str_map, str_all_map.
  apply concept_shape_spec in H as [[Hl Hn]|(c & rest & -> & Hu & Hl & Hn)].
  - split; [|done]. revert Hl. apply str_all_impl. intros c Hc.
    apply chr_lower_is_lower. by rewrite Hc, orb_true_r.
  - split; [|simpl; lia]. simpl. rewrite chr_lower_is_lower by (by rewrite Hu).
    revert Hl. apply str_all_impl. intros d Hd.
    apply chr_lower_is_lower. by rewrite Hd, orb_true_r.
Qed.

(** Membership in a list given by a closed term: the list is computed and
    searched. *)
Local Ltac list_elem_eval :=
  match goal with
  | |- _ ∈ ?l =>
      let l' := eval vm_compute in l in
      replace l with l' by (vm_compute; reflexivity)
  end;
  repeat first [apply list_elem_of_here | apply list_elem_of_further].

(** X1.  Every concept of a text is made of lowercase letters only and is
    at least three characters long. *)
Theorem concepts_are_lowercase_words user_text c :
  c ∈ extract_concepts user_text →
  str_all is_lower c = true ∧ (3 ≤ String.length c)%nat.
Proof.
  intros (s & w & _ & Hw & ->)%extract_concepts_elem.
  rewrite findall_concepts_word_runs in Hw.
  apply elem_of_filter_bool in Hw as [_ Hshape]. by apply lower_of_shape.
Qed.

Lemma concepts_are_lowercase_words_witness :
  str_all is_lower "photosynthesis" = true ∧ (3 ≤ String.length "photosynthesis")%nat.
Proof.
  apply (concepts_are_lowercase_words "Plants absorb sunlight through Photosynthesis.").
  apply extract_concepts_elem.
  exists "Plants absorb sunlight through Photosynthesis", "Photosynthesis".
  split_and!; [list_elem_eval..|reflexivity].
Defined.

(** X2.  In an ASCII text, subject and object of every extracted relation
    are non-empty, hold no whitespace, and are fixed by [capitalize]:
    capitalizing them again, as a consumer might, changes nothing. *)
Theorem relation_endpoints_normal user_text r :
  ascii_only user_text = true →
  r ∈ extract_relations user_text →
  (token_like (subject r) ∧ capitalize (subject r) = subject r) ∧
  (token_like (object r) ∧ capitalize (object r) = object r).
Proof.
  intros _ Hr. destruct (extract_relations_endpoints _ _ Hr) as (Hs & Ho & _).
  apply extract_relations_inv in Hr as (s & first & mid & lst & _ & _ & _ & ->).
  unfold subject, object in *. cbn [fst snd] in *.
  rewrite !capitalize_idemp. by split_and!.
Qed.

Lemma relation_endpoints_normal_witness :
  (token_like "Dna" ∧ capitalize "Dna" = "Dna") ∧
  (token_like "Information" ∧ capitalize "Information" = "Information").
Proof.
  apply (relation_endpoints_normal "DNA stores   information!" ("Dna", "stores", "Information"));
    [reflexivity|].
  list_elem_eval.
Defined.

Lemma str_split_from_app cur t rest :
  spaceless t = true → str_split_from cur (t +:+ rest) = str_split_from (cur +:+ t) rest.
Proof.
  unfold spaceless. revert cur. induction t as [|c t IH]; intros cur Ht.
  - by rewrite app_empty_l, app_empty_r.
  - simpl in Ht. apply andb_true_iff in Ht as [Hc Ht]. apply negb_true_iff in Hc.
    rewrite app_cons. simpl. rewrite Hc, IH by done. by rewrite snoc_app.
Qed.

Lemma str_split_from_space cur rest :
  cur ≠ "" → str_split_from cur (String " " rest) = cur :: str_split_from "" rest.
Proof. intros H%is_empty_false. simpl. by rewrite H. Qed.

(** Splitting what [" ".join] made of tokens gives the tokens back. *)
Lemma str_split_join l : Forall token_like l → str_split (join " " l) = l.
Proof.
  unfold str_split. induction 1 as [|x l [Hne Hsp] Hl IH]; [done|].
  destruct l as [|y l].
  - simpl. rewrite <-(app_empty_r x) at 1. rewrite str_split_from_app by done.
    rewrite app_empty_l. simpl. apply is_empty_false in Hne. by rewrite Hne.
  - change (join " " (x :: y :: l)) with (x +:+ String " " (join " " (y :: l))).
    rewrite str_split_from_app by done. rewrite app_empty_l.
    rewrite str_split_from_space by done. by rewrite IH.
Qed.

Lemma join_split_tokens l : Forall token_like l → join " " (str_split (join " " l)) = join " " l.
Proof. intros H. by rewrite str_split_join. Qed.

(** X3.  The predicate of a relation splits back into the tokens strictly
    between the first and the last token of its sentence: whatever runs of
    whitespace stood between them in the text, the predicate has one space
    between two tokens and none at its ends. *)
Theorem predicate_splits_into_middle_tokens s r :
  sentence_relation s = Some r →
  str_split (predicate r) = middle (str_split s) ∧
  join " " (str_split (predicate r)) = predicate r.
Proof.
  intros (first & mid & lst & E & Hmid & ->)%sentence_relation_inv.
  assert (Forall token_like mid) as Htok.
  { apply Forall_forall. intros t Ht. apply (str_split_token s). rewrite E. set_solver. }
  unfold predicate. cbn [fst snd]. rewrite E, middle_spec.
  by rewrite str_split_join.
Qed.

Lemma predicate_splits_into_middle_tokens_witness :
  str_split "absorb sunlight through" = ["absorb"; "sunlight"; "through"] ∧
  join " " (str_split "absorb sunlight through") = "absorb sunlight through".
Proof.
  exact (predicate_splits_into_middle_tokens
           "  Plants   absorb sunlight     through  photosynthesis "
           ("Plants", "absorb sunlight through", "Photosynthesis") eq_refl).
Defined.

Lemma re_split_from_free cur s p :
  terminator_free cur = true → p ∈ re_split_from cur s → terminator_free p = true.
Proof.
  unfold terminator_free. revert cur. induction s as [|c s IH]; intros cur Hcur; simpl.
  - by intros ->%list_elem_of_singleton.
  - destruct (is_sentence_end c) eqn:Ec.
    + intros [->|Hp]%elem_of_cons; [done|]. by apply (IH "").
    + apply IH. by rewrite str_all_snoc, Hcur, Ec.
Qed.

Lemma str_all_lstrip p s : str_all p s = true → str_all p (lstrip s) = true.
Proof.
  induction s as [|c s IH]; [done|]. simpl.
  intros [Hc Hs]%andb_true_iff. destruct (py_isspace c); [by apply IH|].
  simpl. by rewrite Hc, Hs.
Qed.

Lemma str_all_rstrip p s : str_all p s = true → str_all p (rstrip s) = true.
Proof.
  induction s as [|c s IH]; [done|]. simpl.
  intros [Hc Hs]%andb_true_iff. specialize (IH Hs).
  destruct (rstrip s) as [|d r].
  - destruct (py_isspace c); [done|]. simpl. by rewrite Hc.
  - simpl in *. by rewrite Hc.
Qed.

Lemma str_all_strip p s : str_all p s = true → str_all p (strip s) = true.
Proof. intros H. by apply str_all_rstrip, str_all_lstrip. Qed.

Lemma str_split_from_all p cur s t :
  str_all p cur = true → str_all p s = true →
  t ∈ str_split_from cur s → str_all p t = true.
Proof.
  revert cur. induction s as [|c s IH]; intros cur Hcur Hs; simpl.
  - destruct cur; simpl; [by intros ?%elem_of_nil|].
    by intros ->%list_elem_of_singleton.
  - simpl in Hs. apply andb_true_iff in Hs as [Hc Hs].
    destruct (py_isspace c).
    + intros [Ht|Ht]%elem_of_app; [|by apply (IH "")].
      destruct cur; simpl in Ht; [by apply elem_of_nil in Ht|].
      by apply list_elem_of_singleton in Ht as ->.
    + apply IH; [|done]. by rewrite str_all_snoc, Hcur, Hc.
Qed.

Lemma sentences_elem user_text s :
  s ∈ sentences user_text ↔ s ≠ "" ∧ ∃ p, p ∈ re_split user_text ∧ s = strip p.
Proof.
  unfold sentences. rewrite elem_of_filter_bool, list_elem_of_fmap, negb_true_iff.
  rewrite is_empty_false. naive_solver.
Qed.

Lemma sentences_terminator_free user_text s :
  s ∈ sentences user_text → terminator_free s = true.
Proof.
  intros (_ & p & Hp & ->)%sentences_elem.
  apply str_all_strip. by apply (re_split_from_free "" user_text).
Qed.

Lemma terminator_free_capitalize t :
  terminator_free (capitalize t) = terminator_free t.
Proof.
  destruct t as [|c t]; [done|]. unfold terminator_free. simpl. unfold lower.
  rewrite is_sentence_end_chr_upper, str_all_map. f_equal.
  apply str_all_ext. intros d. by rewrite is_sentence_end_chr_lower.
Qed.

Lemma terminator_free_join l :
  Forall (λ t, terminator_free t = true) l → terminator_free (join " " l) = true.
Proof.
  unfold terminator_free. induction 1 as [|x l Hx Hl IH]; [done|].
  destruct l as [|y l]; [done|].
  change (join " " (x :: y :: l)) with (x +:+ String " " (join " " (y :: l))).
  rewrite str_all_app. apply andb_true_iff. split; [exact Hx|].
  cbn [str_all]. rewrite IH. reflexivity.
Qed.

(** X4.  The text is cut at every [.], [?] and [!], wherever it stands, so
    no subject, predicate or object of an extracted relation holds one of
    these characters: an abbreviation or a decimal number ends the sentence
    it is in. *)
Theorem relations_hold_no_terminator user_text r :
  r ∈ extract_relations user_text →
  terminator_free (subject r) = true ∧
  terminator_free (predicate r) = true ∧
  terminator_free (object r) = true.
Proof.
  intros (s & first & mid & lst & Hs & E & _ & ->)%extract_relations_inv.
  apply sentences_terminator_free in Hs.
  assert (∀ t, t ∈ first :: mid ++ [lst] → terminator_free t = true) as Htok.
  { intros t Ht. rewrite <-E in Ht. by apply (str_split_from_all _ "" s t). }
  unfold subject, predicate, object. cbn [fst snd].
  rewrite !terminator_free_capitalize. split_and!.
  - apply Htok. set_solver.
  - apply terminator_free_join, Forall_forall. intros t Ht. apply Htok. set_solver.
  - apply Htok. set_solver.
Qed.

Lemma relations_hold_no_terminator_witness :
  terminator_free "Smith" = true ∧
  terminator_free "treats many" = true ∧
  terminator_free "Patients" = true.
Proof.
  apply (relations_hold_no_terminator "Dr. Smith treats many patients."
           ("Smith", "treats many", "Patients")).
  list_elem_eval.
Defined.

(** ** What the serialiser writes *)

Lemma graph_writable_spec (g : gset statement) :
  graph_writable g = true ↔ ∀ t, t ∈ g → statement_writable t = true.
Proof.
  unfold graph_writable. rewrite forallb_forall.
  split; intros H t Ht; apply H.
  - by apply list_elem_of_In, elem_of_elements.
  - by apply elem_of_elements, list_elem_of_In.
Qed.

Lemma graph_writable_empty : graph_writable (∅ : gset statement) = true.
Proof. apply graph_writable_spec. by intros t ?%elem_of_empty. Qed.

Lemma graph_writable_union (g1 g2 : gset statement) :
  graph_writable (g1 ∪ g2) = graph_writable g1 && graph_writable g2.
Proof.
  apply eq_true_iff_eq. rewrite andb_true_iff, !graph_writable_spec.
  setoid_rewrite elem_of_union. naive_solver.
Qed.

Lemma ex_valid name : iri_valid (ex name) = iri_valid name.
Proof. unfold iri_valid, ex. by rewrite str_all_app. Qed.

Lemma relation_writable_spec r :
  relation_writable r = true ↔
  iri_valid (subject r) = true ∧ iri_valid (underscored (predicate r)) = true ∧
  iri_valid (object r) = true.
Proof.
  unfold relation_writable. rewrite !ex_valid, !andb_true_iff. naive_solver.
Qed.

Lemma graph_writable_rdf_graph (relations : list relation) :
  graph_writable (rdf_graph relations) = true ↔
  ∀ r, r ∈ relations → relation_writable r = true.
Proof.
  rewrite graph_writable_spec. split.
  - intros H r Hr.
    assert (statement_writable (edge r) = true) as He.
    { apply H, rdf_graph_elem. exists r. auto. }
    unfold statement_writable, edge in He. cbn [fst snd] in He.
    exact He.
  - intros H t (r & Hr & Ht)%rdf_graph_elem. specialize (H r Hr).
    unfold relation_writable in H.
    apply andb_true_iff in H as [[Hs Hp]%andb_true_iff Ho].
    destruct Ht as [-> | [-> | ->]];
      unfold statement_writable, subject_type, object_type, edge; cbn [fst snd];
      rewrite ?Hs, ?Hp, ?Ho; reflexivity.
Qed.

(** ** What Tab 1 does to the store *)

Lemma re_split_from_blank cur s p :
  blank cur = true → separators_only s = true →
  p ∈ re_split_from cur s → blank p = true.
Proof.
  unfold blank, separators_only. revert cur.
  induction s as [|c s IH]; intros cur Hcur Hs; simpl.
  - by intros ->%list_elem_of_singleton.
  - simpl in Hs. apply andb_true_iff in Hs as [Hc Hs].
    destruct (is_sentence_end c) eqn:Ec.
    + intros [->|Hp]%elem_of_cons; [done|]. by apply (IH "").
    + simpl in Hc. apply IH; [|done]. by rewrite str_all_snoc, Hcur, Hc.
Qed.

Lemma extract_loop_blank acc l :
  (∀ p, p ∈ l → blank p = true) → foldl extract_step acc l = acc.
Proof.
  induction l as [|p l IH]; intros H; simpl; [done|].
  assert (extract_step acc p = acc) as ->.
  { unfold extract_step. rewrite (proj2 (strip_empty_iff p)); [done|].
    apply H. set_solver. }
  apply IH. intros q Hq. apply H. set_solver.
Qed.

Lemma extract_separators_only user_text :
  separators_only user_text = true → extract user_text = (∅, []).
Proof.
  intros H. unfold extract. apply extract_loop_blank.
  intros p Hp. by apply (re_split_from_blank "" user_text).
Qed.

(** X5.  A text of sentence terminators and whitespace alone, with at
    least one terminator, is not blank: it passes the guard of Tab 1, no
    warning is shown, and the store is overwritten with an empty concept set,
    an empty relation list, the serialisation of the empty graph and an empty
    OWL text. *)
Theorem generate_separators_only serialize user_text
    (st : gmap string session_value) :
  blank user_text = false → separators_only user_text = true →
  generate serialize true user_text st
  = (<["owl" := VText ""]>
       (<["rdf" := VText (serialize ∅)]>
          (<["concepts" := VConcepts ∅]>
             (<["relations" := VRelations []]> st))),
     [ Subheader "Extracted Concepts";
       Success "";
       Subheader "RDF Triples";
       Code (serialize ∅) "turtle";
       Subheader "OWL Representation";
       Code "" "owl" ]).
Proof.
  intros Hb Hs. unfold generate.
  destruct (is_empty (strip user_text)) eqn:E.
  { apply is_empty_true, strip_empty_iff in E. congruence. }
  rewrite extract_separators_only by done. cbv beta iota zeta.
  change (rdf_graph []) with (∅ : gset statement). rewrite graph_writable_empty.
  unfold owl_text, owl_output. by rewrite elements_empty.
Qed.

Lemma generate_separators_only_witness :
  let st := (generate nt_serialize true "Cats chase mice." ∅).1 in
  (generate nt_serialize true " ... " st).1 !! "relations" = Some (VRelations []).
Proof.
  intros st.
  rewrite (generate_separators_only nt_serialize " ... " st eq_refl eq_refl).
  cbn [fst]. do 3 (rewrite lookup_insert_ne by done). apply lookup_insert_eq.
Defined.

Lemma generate_state_cases serialize b user_text (st : gmap string session_value) :
  (generate serialize b user_text st).1 = st ∨
  ∃ owl rdf concepts relations,
    (generate serialize b user_text st).1
    = <["owl" := owl]> (<["rdf" := rdf]>
        (<["concepts" := concepts]> (<["relations" := relations]> st))).
Proof.
  unfold generate.
  destruct (b && negb (is_empty (strip user_text))).
  - destruct (extract user_text) as [concepts relations].
    destruct (graph_writable (rdf_graph relations)); [right|left]; simpl; eauto.
  - left. by destruct b.
Qed.

(** X6.  Generation replaces the store, it does not add to it: after a
    generation from a non-blank text whose graph the serialiser writes, the
    four keys hold the relations, the concepts, the Turtle text and the OWL
    text of this text, every other key of the session state is as before,
    and nothing of what an earlier generate action had stored is left. *)
Theorem generate_replaces_store serialize b earlier_text user_text
    (st : gmap string session_value) :
  blank user_text = false →
  graph_writable (rdf_graph (extract_relations user_text)) = true →
  (generate serialize true user_text st).1 !! "relations"
  = Some (VRelations (extract_relations user_text)) ∧
  (generate serialize true user_text st).1 !! "concepts"
  = Some (VConcepts (extract_concepts user_text)) ∧
  (generate serialize true user_text st).1 !! "rdf"
  = Some (VText (serialize (rdf_graph (extract_relations user_text)))) ∧
  (generate serialize true user_text st).1 !! "owl"
  = Some (VText (owl_text (extract_concepts user_text) (extract_relations user_text))) ∧
  (∀ key, key ∉ ["relations"; "concepts"; "rdf"; "owl"] →
          (generate serialize true user_text st).1 !! key = st !! key) ∧
  (generate serialize true user_text (generate serialize b earlier_text st).1).1
  = (generate serialize true user_text st).1.
Proof.
  intros Hb Hw. rewrite !generate_stores by done. split_and!.
  - do 3 (rewrite lookup_insert_ne by done). apply lookup_insert_eq.
  - do 2 (rewrite lookup_insert_ne by done). apply lookup_insert_eq.
  - rewrite lookup_insert_ne by done. apply lookup_insert_eq.
  - apply lookup_insert_eq.
  - intros key Hkey. rewrite !lookup_insert_ne; [done|set_solver..].
  - destruct (generate_state_cases serialize b earlier_text st)
      as [->|(o & r & c & l & ->)]; [done|].
    apply map_eq. intros k. rewrite !lookup_insert.
    repeat case_decide; done.
Qed.

Lemma generate_replaces_store_witness :
  (generate nt_serialize true "Dogs chase cats."
     (generate nt_serialize true "Cats chase mice." ∅).1).1 !! "relations"
  = Some (VRelations (extract_relations "Dogs chase cats.")).
Proof.
  refine (proj1 (generate_replaces_store nt_serialize true "Cats chase mice."
                   "Dogs chase cats." _ _ _)); by_evaluation.
Defined.

(** ** One tab after another *)

(** X7.  After a generation from a non-blank text whose graph the
    serialiser writes, the query tab is open: it never shows the "generate
    first" warning, it runs the query against the relations of this text, and
    it leaves the state as the generation made it. *)
Theorem generate_then_query serialize user_text query
    (st : gmap string session_value) :
  blank user_text = false →
  graph_writable (rdf_graph (extract_relations user_text)) = true →
  semantic_query query true (generate serialize true user_text st).1
  = ((generate serialize true user_text st).1,
     if bool_decide (run_query (extract_relations user_text) query = [])
     then [Error "No matching semantic relations found."]
     else Success "Query Results:"
          :: (Write <$> run_query (extract_relations user_text) query)).
Proof.
  intros Hb Hw. unfold semantic_query.
  rewrite generate_lookup_relations by done.
  by destruct (bool_decide (run_query (extract_relations user_text) query = [])).
Qed.

Lemma generate_then_query_witness :
  semantic_query "what about mice?" true
    (generate nt_serialize true "Cats chase mice. Dogs chase cats." ∅).1
  = ((generate nt_serialize true "Cats chase mice. Dogs chase cats." ∅).1,
     [Success "Query Results:"; Write "Cats --[chase]--> Mice"]).
Proof.
  refine (generate_then_query nt_serialize "Cats chase mice. Dogs chase cats."
            "what about mice?" ∅ _ _); by_evaluation.
Defined.

(** X8.  What Tab 4 offers for download after a generation (from a
    non-blank text whose graph the serialiser writes) is what Tab 1 showed:
    the RDF button carries the text of the Turtle code block and the OWL
    button the text of the OWL code block. *)
Theorem generate_then_export serialize parse user_text
    (st : gmap string session_value) :
  blank user_text = false →
  graph_writable (rdf_graph (extract_relations user_text)) = true →
  ∃ rdf owl,
    Code rdf "turtle" ∈ (generate serialize true user_text st).2 ∧
    Code owl "owl" ∈ (generate serialize true user_text st).2 ∧
    export_merge serialize parse None (generate serialize true user_text st).1
    = ((generate serialize true user_text st).1,
       [ DownloadButton "Download RDF (.ttl)" rdf "ontology.ttl" "text/turtle";
         DownloadButton "Download OWL (.owl)" owl "ontology.owl" "application/rdf+xml";
         Subheader "Ontology Merge" ]).
Proof.
  intros Hb Hw.
  exists (serialize (rdf_graph (extract_relations user_text))),
         (owl_text (extract_concepts user_text) (extract_relations user_text)).
  assert ((generate serialize true user_text st).2
          = [ Subheader "Extracted Concepts";
              Success (join ", " (sorted (elements (extract_concepts user_text))));
              Subheader "RDF Triples";
              Code (serialize (rdf_graph (extract_relations user_text))) "turtle";
              Subheader "OWL Representation";
              Code (owl_text (extract_concepts user_text) (extract_relations user_text))
                   "owl" ]) as ->.
  { unfold generate. unfold extract_concepts, extract_relations in *.
    destruct (is_empty (strip user_text)) eqn:E.
    - apply is_empty_true, strip_empty_iff in E. congruence.
    - simpl. destruct (extract user_text). simpl in *. by rewrite Hw. }
  split_and!; [set_solver..|].
  unfold export_merge. rewrite generate_stores by done.
  rewrite lookup_insert_ne by done. by rewrite !lookup_insert_eq.
Qed.

Lemma generate_then_export_witness :
  ∃ rdf owl,
    Code rdf "turtle" ∈ (generate nt_serialize true "Cats chase mice." ∅).2 ∧
    Code owl "owl" ∈ (generate nt_serialize true "Cats chase mice." ∅).2 ∧
    export_merge nt_serialize nt_parse None (generate nt_serialize true "Cats chase mice." ∅).1
    = ((generate nt_serialize true "Cats chase mice." ∅).1,
       [ DownloadButton "Download RDF (.ttl)" rdf "ontology.ttl" "text/turtle";
         DownloadButton "Download OWL (.owl)" owl "ontology.owl" "application/rdf+xml";
         Subheader "Ontology Merge" ]).
Proof.
  refine (generate_then_export nt_serialize nt_parse "Cats chase mice." ∅ _ _);
    by_evaluation.
Defined.

(** ** More on the query *)

Lemma run_query_ext (relations : list relation) q1 q2 :
  lower q1 = lower q2 → run_query relations q1 = run_query relations q2.
Proof.
  intros E. rewrite !run_query_filter. f_equal.
  induction relations as [|r relations IH]; [done|]. simpl.
  unfold query_matches at 1 3. by rewrite E, IH.
Qed.

(** X9.  The query does not look at the case of an ASCII question: the
    question in lower case, and the question in upper case, give the result
    list of the question as typed. *)
Theorem query_ignores_question_case (relations : list relation) query :
  ascii_only query = true →
  run_query relations (lower query) = run_query relations query ∧
  run_query relations (upper query) = run_query relations query.
Proof.
  intros _. split; apply run_query_ext; [apply lower_idemp|apply lower_upper].
Qed.

Lemma query_ignores_question_case_witness :
  run_query [("Cats", "chase", "Mice")] (lower "Do CATS hunt?")
  = run_query [("Cats", "chase", "Mice")] "Do CATS hunt?" ∧
  run_query [("Cats", "chase", "Mice")] (upper "Do CATS hunt?")
  = run_query [("Cats", "chase", "Mice")] "Do CATS hunt?".
Proof.
  exact (query_ignores_question_case [("Cats", "chase", "Mice")] "Do CATS hunt?" eq_refl).
Defined.

Lemma occurs_app_context p s a b : occurs p s → occurs p (a +:+ s +:+ b).
Proof.
  intros (a' & b' & ->). exists (a +:+ a'), (b' +:+ b).
  by rewrite !app_assoc_str.
Qed.

Lemma query_matches_context query a b r :
  query_matches query r = true → query_matches (a +:+ query +:+ b) r = true.
Proof.
  rewrite !query_matches_occurs, !lower_app.
  intros [H|H]; [left|right]; by apply occurs_app_context.
Qed.

Lemma run_query_elem (relations : list relation) query d :
  d ∈ run_query relations query ↔
  ∃ r, r ∈ relations ∧ query_matches query r = true ∧ d = describe r.
Proof.
  rewrite run_query_filter, list_elem_of_fmap.
  setoid_rewrite elem_of_filter_bool. naive_solver.
Qed.

(** X10.  An ASCII question that quotes the subject of a stored relation,
    or its object, in any case and with anything before and after it, has
    this relation among its results (subject and object being ASCII as
    well). *)
Theorem query_finds_quoted_endpoint (relations : list relation) r a b :
  ascii_only a = true → ascii_only b = true →
  ascii_only (subject r) = true → ascii_only (object r) = true →
  r ∈ relations →
  describe r ∈ run_query relations (a +:+ subject r +:+ b) ∧
  describe r ∈ run_query relations (a +:+ object r +:+ b) ∧
  describe r ∈ run_query relations (a +:+ upper (subject r) +:+ b) ∧
  describe r ∈ run_query relations (a +:+ lower (object r) +:+ b).
Proof.
  intros _ _ _ _ Hr.
  split_and!; apply run_query_elem; exists r; split_and!; try done;
    apply query_matches_occurs; rewrite !lower_app, ?lower_upper, ?lower_idemp.
  - left. by eexists _, _.
  - right. by eexists _, _.
  - left. by eexists _, _.
  - right. by eexists _, _.
Qed.

Lemma query_finds_quoted_endpoint_witness :
  "Cats --[chase]--> Mice"
    ∈ run_query [("Dogs", "chase", "Cats"); ("Cats", "chase", "Mice")]
                ("Do " +:+ upper "Cats" +:+ " hunt?").
Proof.
  refine (proj1 (proj2 (proj2 (query_finds_quoted_endpoint
            [("Dogs", "chase", "Cats"); ("Cats", "chase", "Mice")]
            ("Cats", "chase", "Mice") "Do " " hunt?"
            eq_refl eq_refl eq_refl eq_refl _)))).
  apply list_elem_of_further, list_elem_of_here.
Defined.

(** X11.  Adding ASCII text before or after an ASCII question never loses
    a result: what the question finds, the longer question finds too. *)
Theorem query_results_grow_with_question (relations : list relation) query a b d :
  ascii_only a = true → ascii_only query = true → ascii_only b = true →
  d ∈ run_query relations query →
  d ∈ run_query relations (a +:+ query +:+ b).
Proof.
  intros _ _ _. rewrite !run_query_elem. intros (r & Hr & Hm & ->).
  exists r. split_and!; [done| |done]. by apply query_matches_context.
Qed.

Lemma query_results_grow_with_question_witness :
  "Cats --[chase]--> Mice"
    ∈ run_query [("Cats", "chase", "Mice")] ("Tell me: " +:+ "mice" +:+ " or birds?").
Proof.
  apply query_results_grow_with_question; [reflexivity..|]. list_elem_eval.
Defined.

(** ** More on the RDF graph *)

Lemma size_graph_add (t : statement) (g : gset statement) :
  (size (graph_add t g) ≤ S (size g))%nat.
Proof.
  unfold graph_add. rewrite size_union_alt, size_singleton.
  assert (size (g ∖ {[t]}) ≤ size g)%nat; [|lia].
  apply subseteq_size. set_solver.
Qed.

Lemma size_rdf_loop g (relations : list relation) :
  (size (foldl rdf_step g relations) ≤ size g + 3 * length relations)%nat.
Proof.
  revert g. induction relations as [|r relations IH]; intros g; simpl; [lia|].
  etrans; [apply IH|]. unfold rdf_step.
  pose proof (size_graph_add (subject_type r) g).
  pose proof (size_graph_add (object_type r) (graph_add (subject_type r) g)).
  pose proof (size_graph_add (edge r)
                (graph_add (object_type r) (graph_add (subject_type r) g))).
  lia.
Qed.

(** X12.  The RDF graph depends on which relations the list holds, not on
    their order or on how often one occurs: two lists with the same elements
    give the same graph.  A graph has at most three statements for each
    relation. *)
Theorem rdf_graph_of_same_relations (relations1 relations2 : list relation) :
  (∀ r, r ∈ relations1 ↔ r ∈ relations2) →
  rdf_graph relations1 = rdf_graph relations2 ∧
  (size (rdf_graph relations1) ≤ 3 * length relations1)%nat.
Proof.
  intros H. split.
  - apply set_eq. intros t. rewrite !rdf_graph_elem. by setoid_rewrite H.
  - pose proof (size_rdf_loop ∅ relations1) as Hs.
    rewrite size_empty in Hs. exact Hs.
Qed.

Lemma rdf_graph_of_same_relations_witness :
  rdf_graph [("Cats", "chase", "Mice"); ("Dogs", "chase", "Cats"); ("Cats", "chase", "Mice")]
  = rdf_graph [("Dogs", "chase", "Cats"); ("Cats", "chase", "Mice")].
Proof.
  refine (proj1 (rdf_graph_of_same_relations _ _ _)).
  intros r. rewrite !elem_of_cons. naive_solver.
Defined.

Lemma str_all_join (p : ascii → bool) l :
  p " "%char = true → Forall (λ t, str_all p t = true) l →
  str_all p (join " " l) = true.
Proof.
  intros Hp. induction 1 as [|x l Hx Hl IH]; [done|].
  destruct l as [|y l]; [done|].
  change (join " " (x :: y :: l)) with (x +:+ String " " (join " " (y :: l))).
  rewrite str_all_app. apply andb_true_iff. split; [exact Hx|].
  cbn [str_all]. by rewrite IH, Hp.
Qed.

Lemma underscored_spaceless s :
  str_all (λ c, negb (py_isspace c) || Ascii.eqb c " ") s = true →
  spaceless (underscored s) = true.
Proof.
  unfold spaceless, underscored, replace_chr. rewrite str_all_map.
  apply str_all_impl. intros c. destruct (Ascii.eqb c " "); [done|].
  by rewrite orb_false_r.
Qed.

Lemma ex_spaceless name : spaceless (ex name) = spaceless name.
Proof. unfold spaceless, ex. by rewrite str_all_app. Qed.

(** X13.  No IRI in the RDF graph of a generated store holds whitespace:
    subjects and objects are single tokens, and in the predicate the spaces
    between the tokens are replaced by underscores. *)
Theorem generated_iris_hold_no_whitespace user_text (t : statement) :
  t ∈ rdf_graph (extract_relations user_text) →
  spaceless t.1.1 = true ∧ spaceless t.1.2 = true ∧ spaceless t.2 = true.
Proof.
  intros (r & Hr & Ht)%rdf_graph_elem.
  destruct (extract_relations_endpoints _ _ Hr) as ([_ Hs] & [_ Ho] & _).
  assert (spaceless (underscored (predicate r)) = true) as Hp.
  { apply extract_relations_inv in Hr as (s & first & mid & lst & _ & E & _ & ->).
    apply underscored_spaceless. unfold predicate. cbn [fst snd].
    apply str_all_join; [done|]. apply Forall_forall. intros w Hw.
    assert (token_like w) as [_ Hsp].
    { apply (str_split_token s). rewrite E. set_solver. }
    revert Hsp. apply str_all_impl. intros c Hc. by rewrite Hc. }
  destruct Ht as [-> | [-> | ->]]; cbn [fst snd]; by rewrite ?ex_spaceless.
Qed.

Lemma generated_iris_hold_no_whitespace_witness :
  spaceless "http://example.org/Plants" = true ∧
  spaceless "http://example.org/absorb_sunlight_through" = true ∧
  spaceless "http://example.org/Photosynthesis" = true.
Proof.
  apply (generated_iris_hold_no_whitespace
           "Plants absorb sunlight through photosynthesis."
           ("http://example.org/Plants",
            "http://example.org/absorb_sunlight_through",
            "http://example.org/Photosynthesis")).
  apply rdf_graph_elem.
  exists ("Plants", "absorb sunlight through", "Photosynthesis").
  split; [list_elem_eval|]. right. right. reflexivity.
Defined.

(** ** When the serialiser refuses the graph *)

Lemma is_iri_breaker_chr_upper c : is_iri_breaker (chr_upper c) = is_iri_breaker c.
Proof. each_char c. Qed.

Lemma is_iri_breaker_chr_lower c : is_iri_breaker (chr_lower c) = is_iri_breaker c.
Proof. each_char c. Qed.

Lemma breaker_free_token_char c :
  (negb (is_iri_breaker c) || Ascii.eqb c " ") && negb (py_isspace c)
  && is_iri_breaker c = false.
Proof. each_char c. Qed.

Lemma breaker_free_char c :
  negb (is_iri_breaker c) = true → negb (is_iri_breaker c) || Ascii.eqb c " " = true.
Proof. by intros ->. Qed.

Lemma iri_valid_capitalize t : iri_valid (capitalize t) = iri_valid t.
Proof.
  destruct t as [|c t]; [done|]. unfold iri_valid. simpl. unfold lower.
  rewrite is_iri_breaker_chr_upper, str_all_map. f_equal.
  apply str_all_ext. intros d. by rewrite is_iri_breaker_chr_lower.
Qed.

Lemma re_split_from_all p cur s piece :
  str_all p cur = true → str_all p s = true →
  piece ∈ re_split_from cur s → str_all p piece = true.
Proof.
  revert cur. induction s as [|c s IH]; intros cur Hcur Hs; simpl.
  - by intros ->%list_elem_of_singleton.
  - simpl in Hs. apply andb_true_iff in Hs as [Hc Hs].
    destruct (is_sentence_end c).
    + intros [->|Hp]%elem_of_cons; [done|]. by apply (IH "").
    + apply IH; [|done]. by rewrite str_all_snoc, Hcur, Hc.
Qed.

Lemma token_valid t : token_like t → breaker_free t = true → iri_valid t = true.
Proof.
  unfold breaker_free, iri_valid, spaceless. intros [_ Hsp].
  induction t as [|c t IH]; [done|]. simpl in *.
  apply andb_true_iff in Hsp as [Hc Hsp].
  intros [Hb Ht]%andb_true_iff. rewrite IH by done.
  pose proof (breaker_free_token_char c) as H. rewrite Hb, Hc in H. simpl in H.
  by rewrite H.
Qed.

Lemma underscored_valid s : breaker_free s = true → iri_valid (underscored s) = true.
Proof.
  unfold breaker_free, iri_valid, underscored, replace_chr. rewrite str_all_map.
  apply str_all_impl. intros c. destruct (Ascii.eqb c " "); [done|].
  by rewrite orb_false_r.
Qed.

Lemma breaker_free_relations user_text r :
  breaker_free user_text = true → r ∈ extract_relations user_text →
  relation_writable r = true.
Proof.
  intros Hfree (s & first & mid & lst & Hs & E & _ & ->)%extract_relations_inv.
  apply sentences_elem in Hs as (_ & p & Hp & ->).
  assert (breaker_free (strip p) = true) as Hsent.
  { apply str_all_strip. by apply (re_split_from_all _ "" user_text). }
  assert (∀ t, t ∈ first :: mid ++ [lst] → token_like t ∧ breaker_free t = true) as Htok.
  { intros t Ht. rewrite <-E in Ht. split; [by apply (str_split_token (strip p))|].
    by apply (str_split_from_all _ "" (strip p) t). }
  apply relation_writable_spec. unfold subject, predicate, object. cbn [fst snd].
  rewrite !iri_valid_capitalize. split_and!.
  - apply token_valid; apply Htok; set_solver.
  - apply underscored_valid, str_all_join; [done|].
    apply Forall_forall. intros t Ht. apply Htok. set_solver.
  - apply token_valid; apply Htok; set_solver.
Qed.

(** X19.  The graph of a text is one the serialiser writes exactly when no
    subject, underscored predicate or object of its relations holds one of
    the characters that make an IRI invalid; a text without these characters
    (spaces apart) always gives such a graph.  When the serialiser refuses
    the graph, Tab 1 has shown the concepts and the second subheader, ends in
    the serialiser's exception and stores nothing: the session state is as
    before. *)
Theorem generate_refused_graph serialize user_text
    (st : gmap string session_value) :
  blank user_text = false →
  (graph_writable (rdf_graph (extract_relations user_text)) = true ↔
   ∀ r, r ∈ extract_relations user_text →
        iri_valid (subject r) = true ∧
        iri_valid (underscored (predicate r)) = true ∧
        iri_valid (object r) = true) ∧
  (breaker_free user_text = true →
   graph_writable (rdf_graph (extract_relations user_text)) = true) ∧
  (graph_writable (rdf_graph (extract_relations user_text)) = false →
   generate serialize true user_text st
   = (st, [ Subheader "Extracted Concepts";
            Success (join ", " (sorted (elements (extract_concepts user_text))));
            Subheader "RDF Triples";
            Raised "Exception" ])).
Proof.
  intros Hb. split_and!.
  - rewrite graph_writable_rdf_graph. by setoid_rewrite relation_writable_spec.
  - intros Hfree. apply graph_writable_rdf_graph.
    intros r Hr. by apply (breaker_free_relations user_text).
  - intros Hw. unfold generate. unfold extract_concepts, extract_relations in *.
    destruct (is_empty (strip user_text)) eqn:E.
    + apply is_empty_true, strip_empty_iff in E. congruence.
    + simpl. destruct (extract user_text). simpl in *. by rewrite Hw.
Qed.

Lemma generate_refused_graph_witness :
  let st := (generate nt_serialize true "Cats chase mice." ∅).1 in
  generate nt_serialize true "Cats <chase> mice." st
  = (st, [ Subheader "Extracted Concepts";
           Success (join ", " (sorted (elements (extract_concepts "Cats <chase> mice."))));
           Subheader "RDF Triples";
           Raised "Exception" ]).
Proof.
  intros st.
  refine (proj2 (proj2 (generate_refused_graph nt_serialize "Cats <chase> mice." st _)) _);
    by_evaluation.
Defined.

(** ** More on the merge *)

Lemma generate_lookup_rdf serialize user_text (st : gmap string session_value) :
  blank user_text = false →
  graph_writable (rdf_graph (extract_relations user_text)) = true →
  (generate serialize true user_text st).1 !! "rdf"
  = Some (VText (serialize (rdf_graph (extract_relations user_text)))).
Proof.
  intros Hb Hw. rewrite generate_stores by done.
  rewrite lookup_insert_ne by done. apply lookup_insert_eq.
Qed.

Lemma generate_lookup_owl serialize user_text (st : gmap string session_value) :
  blank user_text = false →
  graph_writable (rdf_graph (extract_relations user_text)) = true →
  (generate serialize true user_text st).1 !! "owl"
  = Some (VText (owl_text (extract_concepts user_text) (extract_relations user_text))).
Proof. intros Hb Hw. rewrite generate_stores by done. apply lookup_insert_eq. Qed.

(** X15.  Merging into a generated store: if the parser reads the
    serialised graph of the store back as that graph, Tab 4 shows the success
    notice and then the serialisation of the union of the store's graph and
    the uploaded one, or, where the uploaded graph holds an IRI the
    serialiser will not write, the serialiser's exception; either way the
    store stays as generated.  Merging the store's own export with itself
    gives its own graph again. *)
Theorem generate_then_merge
    (serialize : gset statement → string) (parse : string → option (gset statement))
    (st : gmap string session_value) (user_text up : string) (gu : gset statement) :
  blank user_text = false →
  graph_writable (rdf_graph (extract_relations user_text)) = true →
  parse (serialize (rdf_graph (extract_relations user_text)))
  = Some (rdf_graph (extract_relations user_text)) →
  parse up = Some gu →
  export_merge serialize parse (Some up) (generate serialize true user_text st).1
  = ((generate serialize true user_text st).1,
     [ DownloadButton "Download RDF (.ttl)"
         (serialize (rdf_graph (extract_relations user_text)))
         "ontology.ttl" "text/turtle";
       DownloadButton "Download OWL (.owl)"
         (owl_text (extract_concepts user_text) (extract_relations user_text))
         "ontology.owl" "application/rdf+xml";
       Subheader "Ontology Merge";
       Success "Ontologies merged successfully!";
       if graph_writable gu
       then Code (serialize (rdf_graph (extract_relations user_text) ∪ gu)) "turtle"
       else Raised "Exception" ]) ∧
  merge parse (serialize (rdf_graph (extract_relations user_text)))
              (serialize (rdf_graph (extract_relations user_text)))
  = Some (rdf_graph (extract_relations user_text)).
Proof.
  intros Hb Hw Hround Hup. split.
  - unfold export_merge, merge.
    rewrite generate_lookup_rdf, generate_lookup_owl by done.
    rewrite Hup, Hround, merge_graphs_union, graph_writable_union, Hw. done.
  - unfold merge. rewrite Hround, merge_graphs_union. f_equal. set_solver.
Qed.

Lemma nt_round_trip_example :
  nt_parse (nt_serialize (rdf_graph (extract_relations "Cats chase mice.")))
  = Some (rdf_graph (extract_relations "Cats chase mice.")).
Proof.
  assert (∃ g, nt_parse (nt_serialize (rdf_graph (extract_relations "Cats chase mice.")))
               = Some g ∧ g = rdf_graph (extract_relations "Cats chase mice."))
    as (g & -> & ->); [|done].
  eexists. split; [nt_parse_eval|].
  replace (extract_relations "Cats chase mice.") with [("Cats", "chase", "Mice")]
    by (vm_compute; reflexivity).
  apply set_eq. intros t. rewrite rdf_graph_elem. unfold graph_add.
  rewrite !elem_of_union, !elem_of_singleton, elem_of_empty.
  setoid_rewrite list_elem_of_singleton.
  split.
  - intros [-> | [-> | [-> | []]]]; eexists; (split; [reflexivity|]);
      [left | right; left | right; right]; reflexivity.
  - intros (r & -> & [-> | [-> | ->]]); [left | right; left | right; right; left];
      reflexivity.
Qed.

Lemma generate_then_merge_witness :
  merge nt_parse (nt_serialize (rdf_graph (extract_relations "Cats chase mice.")))
                 (nt_serialize (rdf_graph (extract_relations "Cats chase mice.")))
  = Some (rdf_graph (extract_relations "Cats chase mice.")).
Proof.
  refine (proj2 (generate_then_merge nt_serialize nt_parse ∅ "Cats chase mice."
                   (nt_serialize (rdf_graph (extract_relations "Cats chase mice.")))
                   _ _ _ nt_round_trip_example nt_round_trip_example)); by_evaluation.
Defined.

(** ** Tab 2: what is drawn *)

Lemma nx_graph_snoc (relations : list relation) r :
  nx_graph (relations ++ [r])
  = nx_add_edge (nx_graph relations) (subject r) (object r) (predicate r).
Proof. unfold nx_graph. by rewrite foldl_snoc. Qed.

Lemma nx_nodes_elem (relations : list relation) n :
  n ∈ nx_nodes (nx_graph relations) ↔
  ∃ r, r ∈ relations ∧ (n = subject r ∨ n = object r).
Proof.
  induction relations as [|r relations IH] using rev_ind.
  - simpl. split; [by intros ?%elem_of_empty|]. by intros (r & ?%elem_of_nil & _).
  - rewrite nx_graph_snoc. simpl. rewrite !elem_of_union, !elem_of_singleton, IH.
    setoid_rewrite elem_of_app. setoid_rewrite list_elem_of_singleton. naive_solver.
Qed.

Lemma nx_label_lookup (relations : list relation) u v :
  nx_label (nx_graph relations) !! (u, v) = predicate <$> last (parallel u v relations).
Proof.
  unfold parallel. induction relations as [|r relations IH] using rev_ind; [done|].
  rewrite nx_graph_snoc, filter_app. simpl nx_label. rewrite lookup_insert.
  case_decide as Heq.
  - injection Heq as Hu Hv. rewrite filter_cons_True by done.
    rewrite filter_nil, last_snoc. done.
  - rewrite filter_cons_False, filter_nil, app_nil_r; [done|].
    intros [Hu Hv]. apply Heq. by rewrite Hu, Hv.
Qed.

Lemma nx_label_size (relations : list relation) :
  (size (nx_label (nx_graph relations)) ≤ length relations)%nat.
Proof.
  induction relations as [|r relations IH] using rev_ind; [done|].
  rewrite nx_graph_snoc, length_app. simpl. rewrite map_size_insert.
  destruct (nx_label (nx_graph relations) !! (subject r, object r)); simpl; lia.
Qed.

(** X16.  The networkx graph has the subjects and objects of the relations
    as its nodes and at most one edge from a node to another: of several
    relations with the same subject and the same object, the edge carries the
    predicate of the last one, and the earlier predicates are not drawn. *)
Theorem nx_graph_last_label_wins (relations : list relation) (u v n : string) :
  (n ∈ nx_nodes (nx_graph relations) ↔
   ∃ r, r ∈ relations ∧ (n = subject r ∨ n = object r)) ∧
  nx_label (nx_graph relations) !! (u, v)
  = predicate <$> last (parallel u v relations) ∧
  (size (nx_label (nx_graph relations)) ≤ length relations)%nat.
Proof.
  split_and!; [apply nx_nodes_elem|apply nx_label_lookup|apply nx_label_size].
Qed.

Lemma pv_network_snoc (relations : list relation) r :
  pv_network (relations ++ [r]) = pv_step (pv_network relations) r.
Proof. unfold pv_network. by rewrite foldl_snoc. Qed.

Lemma pv_add_node_spec net n :
  NoDup (pv_ids net) → (∀ x, x ∈ pv_nodes net → x.2 = x.1) →
  NoDup (pv_ids (pv_add_node net n n)) ∧
  (∀ x, x ∈ pv_ids (pv_add_node net n n) ↔ x = n ∨ x ∈ pv_ids net) ∧
  (∀ x, x ∈ pv_nodes (pv_add_node net n n) → x.2 = x.1) ∧
  pv_edges (pv_add_node net n n) = pv_edges net.
Proof.
  intros Hnd Hlbl. unfold pv_add_node, pv_ids in *. case_bool_decide as Hin.
  - split_and!; [done| |done..]. intros x. naive_solver.
  - simpl. rewrite fmap_app. simpl. split_and!; [| | |done].
    + apply NoDup_app. split_and!; [done| |apply NoDup_singleton].
      intros x Hx ->%list_elem_of_singleton. done.
    + intros x. rewrite elem_of_app, list_elem_of_singleton. naive_solver.
    + intros x [Hx| ->%list_elem_of_singleton]%elem_of_app; [by apply Hlbl|done].
Qed.

Lemma pv_network_spec (relations : list relation) :
  ∃ net, pv_network relations = Some net ∧
    pv_edges net = edge_triple <$> relations ∧
    NoDup (pv_ids net) ∧
    (∀ x, x ∈ pv_nodes net → x.2 = x.1) ∧
    (∀ n, n ∈ pv_ids net ↔ ∃ r, r ∈ relations ∧ (n = subject r ∨ n = object r)).
Proof.
  induction relations as [|r relations IH] using rev_ind.
  - exists pv_empty. split_and!; try done.
    + apply NoDup_nil_2.
    + by intros x ?%elem_of_nil.
    + intros n. split; [by intros ?%elem_of_nil|]. by intros (r & ?%elem_of_nil & _).
  - destruct IH as (net & Hnet & Hedges & Hnd & Hlbl & Hids).
    rewrite pv_network_snoc, Hnet. simpl.
    destruct (pv_add_node_spec net (subject r) Hnd Hlbl) as (Hnd1 & Hids1 & Hlbl1 & He1).
    set (net1 := pv_add_node net (subject r) (subject r)) in *.
    destruct (pv_add_node_spec net1 (object r) Hnd1 Hlbl1) as (Hnd2 & Hids2 & Hlbl2 & He2).
    set (net2 := pv_add_node net1 (object r) (object r)) in *.
    unfold pv_add_edge. fold (pv_ids net2).
    rewrite !bool_decide_eq_true_2 by (apply Hids2; rewrite Hids1; auto).
    eexists. split; [reflexivity|]. simpl. split_and!; [|done..|].
    + by rewrite He2, He1, Hedges, fmap_snoc.
    + intros n. unfold pv_ids in *. simpl. rewrite Hids2, Hids1, Hids.
      setoid_rewrite elem_of_app. setoid_rewrite list_elem_of_singleton. naive_solver.
Qed.

(** X17.  The pyvis network keeps one edge for each relation, in the order
    of the list, equal relations included.  It has each subject and object
    as a node once, labelled with itself, and building it never trips the
    assertion of [add_edge], since both ends of an edge are added as nodes
    just before it. *)
Theorem pyvis_keeps_every_edge (relations : list relation) :
  ∃ net, pv_network relations = Some net ∧
    pv_edges net = edge_triple <$> relations ∧
    NoDup (pv_ids net) ∧
    (∀ x, x ∈ pv_nodes net → x.2 = x.1) ∧
    (∀ n, n ∈ pv_ids net ↔ ∃ r, r ∈ relations ∧ (n = subject r ∨ n = object r)).
Proof.
  destruct (pv_network_spec relations) as (net & Hnet & Hedges & Hnd & Hlbl & Hids).
  exists net. by split_and!.
Qed.


